(** * wasm-game-of-life: the page script [www/index.js]

    A shallow embedding of the render / animation / input loop of the page
    and the properties of its specification.

    Numbers.  A JavaScript number is an IEEE 754 binary64 value; it is
    modelled by Rocq's primitive [float] (binary64, round to nearest even),
    so [1 / delta * 1000] below is the very computation the script does,
    infinities and NaN included.  Numbers that are integers by construction
    (cell counts, pixel positions of grid lines, array indices, handles) are
    in [Z] or [nat]; they stay far below 2^53, where binary64 arithmetic on
    integers is exact.

    Effects.  The engine ([Universe], compiled to WebAssembly), the 2D
    canvas context and the frame scheduler are outside the script.  A
    [World] holds the script's own variables, the scheduler's pending
    callbacks and the chronological list of the calls the script made to
    the engine, the canvas and the scheduler.  What the platform returns
    ([performance.now()], the bounding rectangle, the bytes of the cell
    view) is an argument of the handler that reads it. *)

From Stdlib Require Import String.
From Stdlib Require Import ZArith List Bool Lia Floats Uint63.
Import ListNotations.

Local Open Scope Z_scope.

(** ** JavaScript numbers and loops *)

Module JS.

Open Scope float_scope.

(** An integer as a number (exact for magnitudes below 2^53). *)
Definition float_of_Z (z : Z) : float :=
  if (z <? 0)%Z then - of_uint63 (Uint63.of_Z (- z))
  else of_uint63 (Uint63.of_Z z).

(** [Math.min(x, y)] and [Math.max(x, y)]: NaN if either argument is NaN;
    -0 counts as smaller than +0. *)
Definition Math_min (x y : float) : float :=
  if is_nan x || is_nan y then nan
  else if x <? y then x
  else if y <? x then y
  else if get_sign x then x else y.

Definition Math_max (x y : float) : float :=
  if is_nan x || is_nan y then nan
  else if x <? y then y
  else if y <? x then x
  else if get_sign x then y else x.

(** The integral numbers: what [Math.floor] and [Math.round] return. *)
Inductive integral : Type :=
  | Int (z : Z)
  | PlusInfinity
  | MinusInfinity
  | NotANumber.

(** The integer value of [(-1)^s * m * 2^e]. *)
Definition signed (s : bool) (m : positive) : Z :=
  if s then Z.neg m else Z.pos m.

(** [Math.floor(x)]: the greatest integer not above [x].  [Z.shiftl] by a
    negative amount is the floor of the division by that power of two. *)
Definition Math_floor (x : float) : integral :=
  match Prim2SF x with
  | S754_zero _ => Int 0
  | S754_finite s m e => Int (Z.shiftl (signed s m) e)
  | S754_infinity s => if s then MinusInfinity else PlusInfinity
  | S754_nan => NotANumber
  end.

(** [Math.round(x)]: the nearest integer, ties towards +Infinity, that is
    the floor of [x + 1/2] computed exactly. *)
Definition Math_round (x : float) : integral :=
  match Prim2SF x with
  | S754_zero _ => Int 0
  | S754_finite s m e =>
      if (0 <=? e)%Z then Int (Z.shiftl (signed s m) e)
      else Int (Z.shiftr (2 * signed s m + 2 ^ (- e)) (- e + 1))
  | S754_infinity s => if s then MinusInfinity else PlusInfinity
  | S754_nan => NotANumber
  end.

(** [Math.min] on integral numbers. *)
Definition Math_min_integral (x y : integral) : integral :=
  match x, y with
  | NotANumber, _ | _, NotANumber => NotANumber
  | MinusInfinity, _ | _, MinusInfinity => MinusInfinity
  | PlusInfinity, v | v, PlusInfinity => v
  | Int a, Int b => Int (Z.min a b)
  end.

Close Scope float_scope.

(** [for (let i = lo; i < hi; i++) body(i)].  The test is the loop's own;
    the fuel [hi - lo] is the number of iterations the loop can make. *)
Fixpoint for_loop {St : Type} (fuel : nat) (i hi : Z)
    (body : Z -> St -> St) (s : St) : St :=
  match fuel with
  | O => s
  | S fuel' =>
      if (i <? hi)%Z then for_loop fuel' (i + 1) hi body (body i s) else s
  end.

Definition for_upto {St : Type} (lo hi : Z) (body : Z -> St -> St) (s : St) : St :=
  for_loop (Z.to_nat (hi - lo)) lo hi body s.

End JS.
Import JS.

(** ** Constants and the calls to the outside *)

Definition CELL_SIZE : Z := 10.
Definition GRID_COLOR : string := "#CCCCCC".
Definition DEAD_COLOR : string := "#E0DEF4".
Definition ALIVE_COLOR : string := "#191724".

(** Modelled from the spec: the engine's [Cell] enumeration, which the
    engine declares and the script imports; each byte of the cell view is
    one of Alive and Dead. *)
Inductive Cell : Type := Dead | Alive.

Definition Cell_eqb (a b : Cell) : bool :=
  match a, b with
  | Dead, Dead | Alive, Alive => true
  | _, _ => false
  end.

(** Calls on the 2D context [ctx]. *)
Inductive CtxCall : Type :=
  | beginPath
  | set_strokeStyle (color : string)
  | set_fillStyle (color : string)
  | moveTo (x y : Z)
  | lineTo (x y : Z)
  | fillRect (x y w h : Z)
  | stroke.

(** Calls on the engine [universe]. *)
Inductive UniverseCall : Type :=
  | tick
  | toggle_cell (row col : integral)
  | make_glider (row col : integral)
  | make_pulsar (row col : integral)
  | reset_rand
  | reset_dead
  | cells.

Inductive Call : Type :=
  | performance_now (returned : float)
  | Ctx (c : CtxCall)
  | Universe (c : UniverseCall)
  | requestAnimationFrame (returned : nat)
  | cancelAnimationFrame (handle : option nat).

(** The four numbers shown by the FPS display, each through [Math.round]. *)
Record FpsText : Type := mkFpsText {
  text_latest : integral;
  text_avg : integral;
  text_min : integral;
  text_max : integral
}.

(** The script's variables, the scheduler, and the calls made so far. *)
Record World : Type := mkWorld {
  frames : list float;
  lastFrameTimeStamp : float;
  fps_textContent : option FpsText;
  animationId : option nat;
  playPause_textContent : string;
  rangeSlider_value : Z;
  raf_next : nat;
  raf_pending : list nat;
  calls : list Call
}.

(** World updates, written in the order the script runs them. *)
Notation "w '|>' f" := (f w) (at level 45, left associativity, only parsing).

Definition emits (cs : list Call) (w : World) : World :=
  mkWorld (frames w) (lastFrameTimeStamp w) (fps_textContent w) (animationId w)
    (playPause_textContent w) (rangeSlider_value w) (raf_next w) (raf_pending w)
    (calls w ++ cs).

Definition emit (c : Call) : World -> World := emits [c].

Definition ctx (c : CtxCall) : World -> World := emit (Ctx c).
Definition universe (c : UniverseCall) : World -> World := emit (Universe c).

Definition set_animationId (h : option nat) (w : World) : World :=
  mkWorld (frames w) (lastFrameTimeStamp w) (fps_textContent w) h
    (playPause_textContent w) (rangeSlider_value w) (raf_next w) (raf_pending w)
    (calls w).

Definition set_playPause_textContent (s : string) (w : World) : World :=
  mkWorld (frames w) (lastFrameTimeStamp w) (fps_textContent w) (animationId w)
    s (rangeSlider_value w) (raf_next w) (raf_pending w) (calls w).

Definition set_fps (fr : list float) (t : float) (txt : FpsText) (w : World) : World :=
  mkWorld fr t (Some txt) (animationId w)
    (playPause_textContent w) (rangeSlider_value w) (raf_next w) (raf_pending w)
    (calls w).

(** The frame scheduler of the platform.  [requestAnimationFrame] queues the
    callback under a fresh handle and returns the handle;
    [cancelAnimationFrame(h)] removes the callback queued under [h], if any.
    Handles are positive, so [null] (which converts to 0) removes nothing. *)
Definition platform_request (w : World) : nat * World :=
  let h := raf_next w in
  (h, mkWorld (frames w) (lastFrameTimeStamp w) (fps_textContent w) (animationId w)
        (playPause_textContent w) (rangeSlider_value w) (S h) (raf_pending w ++ [h])
        (calls w ++ [requestAnimationFrame h])).

Definition platform_cancel (handle : option nat) (w : World) : World :=
  mkWorld (frames w) (lastFrameTimeStamp w) (fps_textContent w) (animationId w)
    (playPause_textContent w) (rangeSlider_value w) (raf_next w)
    (match handle with
     | Some h => filter (fun k => negb (Nat.eqb k h)) (raf_pending w)
     | None => raf_pending w
     end)
    (calls w ++ [cancelAnimationFrame handle]).

(** ** The FPS monitor: [fps.render()] *)

Module Fps.

Open Scope float_scope.

(** The locals [sum], [min] and [max] of the statistics loop. *)
Record Acc : Type := mkAcc { acc_sum : float; acc_min : float; acc_max : float }.

Definition acc_init : Acc := mkAcc 0 infinity neg_infinity.

(** The loop body for the entry [x = frames[i]]; an index outside the
    array would read [undefined], which is NaN in arithmetic. *)
Definition acc_add (x : float) (a : Acc) : Acc :=
  mkAcc (acc_sum a + x) (Math_min x (acc_min a)) (Math_max x (acc_max a)).

Definition acc_step (fr : list float) (i : Z) (a : Acc) : Acc :=
  acc_add (nth (Z.to_nat i) fr nan) a.

Definition acc_loop (fr : list float) : Acc :=
  for_upto 0 (Z.of_nat (length fr)) (acc_step fr) acc_init.

(** The statistics of a window, before they are rounded for display. *)
Record Stats : Type := mkStats { mean : float; min : float; max : float }.

Definition statistics (fr : list float) : Stats :=
  let a := acc_loop fr in
  mkStats (acc_sum a / float_of_Z (Z.of_nat (length fr))) (acc_min a) (acc_max a).

(** The instantaneous rate of a frame that took [delta] milliseconds. *)
Definition rate (delta : float) : float := 1 / delta * 1000.

(** [frames.push(fps); if (frames.length > 100) frames.shift()]. *)
Definition push_latest (fr : list float) (fps : float) : list float :=
  let pushed := fr ++ [fps] in
  if (100 <? length pushed)%nat then tl pushed else pushed.

(** [render()], with [now] the reading of [performance.now()]. *)
Definition render (now : float) (w : World) : World :=
  let delta := now - lastFrameTimeStamp w in
  let fps := rate delta in
  let fr := push_latest (frames w) fps in
  let st := statistics fr in
  w |> emit (performance_now now)
    |> set_fps fr now
         (mkFpsText (Math_round fps) (Math_round (mean st))
            (Math_round (min st)) (Math_round (max st))).

End Fps.

(** ** The page *)

Record DOMRect : Type := mkRect {
  rect_left : float; rect_top : float; rect_width : float; rect_height : float
}.

Record MouseEvent : Type := mkEvent {
  clientX : float; clientY : float; ctrlKey : bool; shiftKey : bool
}.

Section Page.

(** [universe.width()] and [universe.height()], read once at startup. *)
Variables width height : Z.

Definition canvas_height : Z := (CELL_SIZE + 1) * height + 1.
Definition canvas_width : Z := (CELL_SIZE + 1) * width + 1.

Definition drawGrid (w : World) : World :=
  w |> ctx beginPath
    |> ctx (set_strokeStyle GRID_COLOR)
    (* vertical lines *)
    |> for_upto 0 (width + 1) (fun i w =>
         w |> ctx (moveTo (i * (CELL_SIZE + 1) + 1) 0)
           |> ctx (lineTo (i * (CELL_SIZE + 1) + 1) ((CELL_SIZE + 1) * height + 1)))
    (* horizontal lines *)
    |> for_upto 0 (height + 1) (fun j w =>
         w |> ctx (moveTo 0 (j * (CELL_SIZE + 1) + 1))
           |> ctx (moveTo ((CELL_SIZE + 1) * width + 1) (j * (CELL_SIZE + 1) + 1)))
    |> ctx stroke.

Definition getIndex (row column : Z) : Z := row * width + column.

(** One pass over the grid filling the cells in state [c]; the others are
    skipped by [continue]. *)
Definition fill_cells (view : Z -> Cell) (c : Cell) (w : World) : World :=
  w |> for_upto 0 height (fun row w =>
         w |> for_upto 0 width (fun col w =>
                let idx := getIndex row col in
                if negb (Cell_eqb (view idx) c) then w
                else w |> ctx (fillRect (col * (CELL_SIZE + 1) + 1)
                                        (row * (CELL_SIZE + 1) + 1)
                                        CELL_SIZE CELL_SIZE))).

(** [view] is the content of the [Uint8Array] over the engine's memory at
    the time of the call. *)
Definition drawCells (view : Z -> Cell) (w : World) : World :=
  w |> universe cells
    |> ctx beginPath
    |> ctx (set_fillStyle ALIVE_COLOR)
    |> fill_cells view Alive
    |> ctx (set_fillStyle DEAD_COLOR)
    |> fill_cells view Dead
    |> ctx stroke.

Definition isPaused (w : World) : bool :=
  match animationId w with
  | None => true
  | Some _ => false
  end.

Definition renderLoop (now : float) (view : Z -> Cell) (w : World) : World :=
  let w1 :=
    w |> Fps.render now
      |> (fun w => for_upto 0 (rangeSlider_value w) (fun _ w => w |> universe tick) w)
      |> drawGrid
      |> drawCells view in
  let (h, w2) := platform_request w1 in
  w2 |> set_animationId (Some h).

Definition play (now : float) (view : Z -> Cell) (w : World) : World :=
  w |> set_playPause_textContent "⏸"
    |> renderLoop now view.

Definition pause (w : World) : World :=
  w |> set_playPause_textContent "▶"
    |> platform_cancel (animationId w)
    |> set_animationId None.

Definition playPauseButton_click (now : float) (view : Z -> Cell) (w : World) : World :=
  if isPaused w then play now view w else pause w.

(** The click listener of the canvas. *)
Definition canvasLeft (boundingRect : DOMRect) (event : MouseEvent) : float :=
  let scaleX := (float_of_Z canvas_width / rect_width boundingRect)%float in
  ((clientX event - rect_left boundingRect) * scaleX)%float.

Definition canvasTop (boundingRect : DOMRect) (event : MouseEvent) : float :=
  let scaleY := (float_of_Z canvas_height / rect_height boundingRect)%float in
  ((clientY event - rect_top boundingRect) * scaleY)%float.

Definition click_row (top : float) : integral :=
  Math_min_integral (Math_floor (top / float_of_Z (CELL_SIZE + 1))) (Int (height - 1)).

Definition click_col (left : float) : integral :=
  Math_min_integral (Math_floor (left / float_of_Z (CELL_SIZE + 1))) (Int (width - 1)).

Definition canvas_click (boundingRect : DOMRect) (event : MouseEvent)
    (view : Z -> Cell) (w : World) : World :=
  let row := click_row (canvasTop boundingRect event) in
  let col := click_col (canvasLeft boundingRect event) in
  w |> (if ctrlKey event then universe (make_glider row col)
        else if shiftKey event then universe (make_pulsar row col)
        else universe (toggle_cell row col))
    |> drawGrid
    |> drawCells view.

Definition resetRand_click (view : Z -> Cell) (w : World) : World :=
  w |> universe reset_rand |> drawGrid |> drawCells view.

Definition resetDead_click (view : Z -> Cell) (w : World) : World :=
  w |> universe reset_dead |> drawGrid |> drawCells view.

(** The state once the monitor is constructed and the slider is set up:
    empty window, the clock reading [t0] taken by the constructor, no
    handle, slider at 1; [label] is the button's text in the markup. *)
Definition initial (t0 : float) (label : string) : World :=
  mkWorld [] t0 None None label 1 1 [] [performance_now t0].

(** The script's last three statements. *)
Definition startup (t0 : float) (label : string) (view : Z -> Cell) : World :=
  initial t0 label |> drawGrid |> drawCells view |> pause.

End Page.

(** ** Calls made, and what they draw *)

(** The calls a handler made, going from [w] to [w']. *)
Definition made (w w' : World) : list Call :=
  skipn (length (calls w)) (calls w').

(** All of a world but its record of calls. *)
Definition forget_calls (w : World) : World :=
  mkWorld (frames w) (lastFrameTimeStamp w) (fps_textContent w) (animationId w)
    (playPause_textContent w) (rangeSlider_value w) (raf_next w) (raf_pending w) [].

Definition is_mutation (c : Call) : bool :=
  match c with
  | Universe cells => false
  | Universe _ => true
  | _ => false
  end.

(** The calls on the 2D context among a list of calls. *)
Definition ctx_calls (cs : list Call) : list CtxCall :=
  flat_map (fun c => match c with Ctx k => [k] | _ => [] end) cs.

Definition is_tick (c : Call) : bool :=
  match c with
  | Universe tick => true
  | _ => false
  end.

Definition is_cancel (c : Call) : bool :=
  match c with
  | cancelAnimationFrame _ => true
  | _ => false
  end.

(** The values of the loop variable of [for (i = lo; i < hi; i++)]. *)
Definition indices (lo hi : Z) : list Z :=
  map (fun k => (lo + Z.of_nat k)%Z) (seq 0 (Z.to_nat (hi - lo))).

(** The context calls of [drawGrid], listed. *)
Definition grid_path (width height : Z) : list CtxCall :=
  [beginPath; set_strokeStyle GRID_COLOR]
  ++ flat_map (fun i => [moveTo (i * (CELL_SIZE + 1) + 1) 0;
                         lineTo (i * (CELL_SIZE + 1) + 1) ((CELL_SIZE + 1) * height + 1)])
       (indices 0 (width + 1))
  ++ flat_map (fun j => [moveTo 0 (j * (CELL_SIZE + 1) + 1);
                         moveTo ((CELL_SIZE + 1) * width + 1) (j * (CELL_SIZE + 1) + 1)])
       (indices 0 (height + 1))
  ++ [stroke].

(** The [fillRect] calls of one pass of [drawCells], listed. *)
Definition cell_fills (width height : Z) (view : Z -> Cell) (c : Cell) : list CtxCall :=
  flat_map (fun row =>
    flat_map (fun col =>
      if Cell_eqb (view (getIndex width row col)) c
      then [fillRect (col * (CELL_SIZE + 1) + 1) (row * (CELL_SIZE + 1) + 1)
              CELL_SIZE CELL_SIZE]
      else [])
      (indices 0 width))
    (indices 0 height).

Definition cells_calls (width height : Z) (view : Z -> Cell) : list Call :=
  Universe cells
  :: map Ctx ([beginPath; set_fillStyle ALIVE_COLOR]
              ++ cell_fills width height view Alive
              ++ [set_fillStyle DEAD_COLOR]
              ++ cell_fills width height view Dead
              ++ [stroke]).

(** The canvas, as far as paths and strokes go: [moveTo] starts a subpath at
    a point, [lineTo] adds the segment from the pen to a point (and only
    places the pen when there is no subpath yet), [stroke] draws the
    segments of the current path in the stroke style, [beginPath] empties
    the path.  [fillRect] leaves the path alone. *)
Record Segment : Type := mkSegment { seg_from : Z * Z; seg_to : Z * Z }.

Record Canvas : Type := mkCanvas {
  pen : option (Z * Z);
  path : list Segment;
  strokeStyle : string;
  stroked : list (string * Segment)
}.

Definition paint (c : CtxCall) (cv : Canvas) : Canvas :=
  match c with
  | beginPath => mkCanvas None [] (strokeStyle cv) (stroked cv)
  | set_strokeStyle s => mkCanvas (pen cv) (path cv) s (stroked cv)
  | set_fillStyle _ => cv
  | moveTo x y => mkCanvas (Some (x, y)) (path cv) (strokeStyle cv) (stroked cv)
  | lineTo x y =>
      match pen cv with
      | Some p => mkCanvas (Some (x, y)) (path cv ++ [mkSegment p (x, y)])
                    (strokeStyle cv) (stroked cv)
      | None => mkCanvas (Some (x, y)) (path cv) (strokeStyle cv) (stroked cv)
      end
  | fillRect _ _ _ _ => cv
  | stroke => mkCanvas (pen cv) (path cv) (strokeStyle cv)
                (stroked cv ++ map (fun s => (strokeStyle cv, s)) (path cv))
  end.

Definition paints (cs : list CtxCall) (cv : Canvas) : Canvas :=
  fold_left (fun cv c => paint c cv) cs cv.

(** The grid lines: vertical line [i] at x = i*(CELL_SIZE+1)+1 over the
    height of the canvas, horizontal line [j] at y = j*(CELL_SIZE+1)+1 over
    its width. *)
Definition vertical_line (height i : Z) : Segment :=
  mkSegment (i * (CELL_SIZE + 1) + 1, 0)
            (i * (CELL_SIZE + 1) + 1, (CELL_SIZE + 1) * height + 1).

Definition horizontal_line (width j : Z) : Segment :=
  mkSegment (0, j * (CELL_SIZE + 1) + 1)
            ((CELL_SIZE + 1) * width + 1, j * (CELL_SIZE + 1) + 1).

Definition is_horizontal (s : Segment) : bool :=
  (snd (seg_from s) =? snd (seg_to s))%Z.

(** ** The monitor over a run of frames *)

(** [render()] at each of the clock readings [ts], in turn. *)
Definition renders (ts : list float) (w : World) : World :=
  fold_left (fun w t => Fps.render t w) ts w.

(** The instantaneous rates of the frames at the readings [ts], the
    previous reading being [previous]. *)
Fixpoint rates (previous : float) (ts : list float) : list float :=
  match ts with
  | [] => []
  | t :: ts' => Fps.rate (t - previous) :: rates t ts'
  end.

(** The last [n] entries of a list. *)
Definition latest (n : nat) {A : Type} (l : list A) : list A :=
  skipn (length l - n)%nat l.

Definition no_nan (fr : list float) : bool :=
  forallb (fun x => negb (is_nan x)) fr.

(** ** Integral numbers in a range *)

Definition integral_leb (x y : integral) : bool :=
  match x, y with
  | NotANumber, _ | _, NotANumber => false
  | MinusInfinity, _ => true
  | _, PlusInfinity => true
  | Int a, Int b => (a <=? b)%Z
  | _, _ => false
  end.

Definition in_range (lo hi : Z) (x : integral) : bool :=
  integral_leb (Int lo) x && integral_leb x (Int hi).


(** NaN among the specification floats. *)
Definition SF_is_nan (x : spec_float) : bool :=
  match x with
  | S754_nan => true
  | _ => false
  end.

(** A number that is neither NaN nor infinite. *)
Definition finite_number (x : float) : bool :=
  match Prim2SF x with
  | S754_zero _ | S754_finite _ _ _ => true
  | _ => false
  end.

(** A specification float that is a zero or a finite number. *)
Definition SF_finite (x : spec_float) : bool :=
  match x with
  | S754_zero _ | S754_finite _ _ _ => true
  | _ => false
  end.

(** A specification float that is neither NaN nor below zero. *)
Definition SF_nonneg (x : spec_float) : bool :=
  match x with
  | S754_zero _ => true
  | S754_finite s _ _ => negb s
  | S754_infinity s => negb s
  | S754_nan => false
  end.

(** ** Pause, as the specification words it *)

(** [pause()] guarded by the check the specification names, "is a handle
    present": nothing is done when none is. *)
Definition pause_guarded (w : World) : World :=
  if isPaused w then w else pause w.

(** ** Filled rectangles *)

(** A rectangle filled by [fillRect], with the fill style in force. *)
Record Fill : Type := mkFill {
  fill_color : string; fill_x : Z; fill_y : Z; fill_w : Z; fill_h : Z
}.

(** The rectangles a list of context calls fills, in order; [fillStyle] is
    the style in force before the first call. *)
Fixpoint fills (cs : list CtxCall) (fillStyle : string) : list Fill :=
  match cs with
  | [] => []
  | set_fillStyle s :: cs' => fills cs' s
  | fillRect x y w h :: cs' => mkFill fillStyle x y w h :: fills cs' fillStyle
  | _ :: cs' => fills cs' fillStyle
  end.

(** The square of the cell at index [idx] of the view, in a color. *)
Definition cell_fill (width : Z) (color : string) (idx : Z) : Fill :=
  mkFill color ((idx mod width) * (CELL_SIZE + 1) + 1)
    ((idx / width) * (CELL_SIZE + 1) + 1) CELL_SIZE CELL_SIZE.

(** The indices below [n] at which the view holds [c], in increasing order. *)
Definition cells_in_state (view : Z -> Cell) (c : Cell) (n : Z) : list Z :=
  filter (fun idx => Cell_eqb (view idx) c) (indices 0 n).

(** Two rectangles that share a point of positive area. *)
Definition overlap (a b : Fill) : bool :=
  (fill_x a <? fill_x b + fill_w b) && (fill_x b <? fill_x a + fill_w a)
  && (fill_y a <? fill_y b + fill_h b) && (fill_y b <? fill_y a + fill_h a).

(** ** The page as a machine *)

(** What can happen to the page once the script has run: a click on the
    toggle button, on the canvas or on a reset button, the user moving the
    slider, and the platform running the frame callback it has queued. *)
Inductive Event : Type :=
  | ToggleClick (now : float) (view : Z -> Cell)
  | CanvasClick (boundingRect : DOMRect) (event : MouseEvent) (view : Z -> Cell)
  | ResetRandClick (view : Z -> Cell)
  | ResetDeadClick (view : Z -> Cell)
  | SliderInput (value : Z)
  | Frame (now : float) (view : Z -> Cell).

(** The slider is a range input with [min = 1] and [max = 50]: the platform
    keeps its value within these. *)
Definition set_rangeSlider_value (v : Z) (w : World) : World :=
  mkWorld (frames w) (lastFrameTimeStamp w) (fps_textContent w) (animationId w)
    (playPause_textContent w) (Z.max 1 (Z.min 50 v)) (raf_next w) (raf_pending w)
    (calls w).

(** The platform runs the oldest queued frame callback, once: it takes it
    off the queue and calls it; the only callback the script ever queues is
    [renderLoop].  With nothing queued, nothing runs. *)
Definition platform_frame (width height : Z) (now : float) (view : Z -> Cell)
    (w : World) : World :=
  match raf_pending w with
  | [] => w
  | _ :: rest =>
      renderLoop width height now view
        (mkWorld (frames w) (lastFrameTimeStamp w) (fps_textContent w) (animationId w)
           (playPause_textContent w) (rangeSlider_value w) (raf_next w) rest (calls w))
  end.

Definition handle (width height : Z) (e : Event) (w : World) : World :=
  match e with
  | ToggleClick now view => playPauseButton_click width height now view w
  | CanvasClick boundingRect event view =>
      canvas_click width height boundingRect event view w
  | ResetRandClick view => resetRand_click width height view w
  | ResetDeadClick view => resetDead_click width height view w
  | SliderInput v => set_rangeSlider_value v w
  | Frame now view => platform_frame width height now view w
  end.

Definition is_toggle (e : Event) : bool :=
  match e with
  | ToggleClick _ _ => true
  | _ => false
  end.

Definition run (width height : Z) (es : list Event) (w : World) : World :=
  fold_left (fun w e => handle width height e w) es w.

(** The stored handle and the scheduler's queue agree: no handle and an
    empty queue, or one handle and that one callback queued; the handles
    queued are ones the scheduler has given out. *)
Definition consistent (w : World) : Prop :=
  match animationId w with
  | None => raf_pending w = []
  | Some h => raf_pending w = [h]
  end
  /\ Forall (fun k => (k < raf_next w)%nat) (raf_pending w)
  /\ 1 <= rangeSlider_value w <= 50.

(** Clock readings whose deltas, as [render()] takes them, are all
    positive. *)
Fixpoint positive_deltas (previous : float) (ts : list float) : bool :=
  match ts with
  | [] => true
  | t :: ts' => (0 <? t - previous)%float && positive_deltas t ts'
  end.

(** * Properties *)

(** ** Loops *)

Lemma indices_nil lo hi : hi <= lo -> indices lo hi = [].
Proof.
  intros H. unfold indices. replace (Z.to_nat (hi - lo)) with O by lia. reflexivity.
Qed.

Lemma indices_cons lo hi : lo < hi -> indices lo hi = lo :: indices (lo + 1) hi.
Proof.
  intros H. unfold indices.
  replace (Z.to_nat (hi - lo)) with (S (Z.to_nat (hi - (lo + 1)))) by lia.
  cbn [seq map]. f_equal; [lia|].
  rewrite <- seq_shift, map_map. apply map_ext. intros k. lia.
Qed.

Lemma indices_snoc lo hi : lo <= hi -> indices lo (hi + 1) = indices lo hi ++ [hi].
Proof.
  intros H. unfold indices.
  replace (Z.to_nat (hi + 1 - lo)) with (Z.to_nat (hi - lo) + 1)%nat by lia.
  rewrite seq_app, map_app. cbn [seq map]. do 2 f_equal. lia.
Qed.

Lemma length_indices lo hi : length (indices lo hi) = Z.to_nat (hi - lo).
Proof. unfold indices. now rewrite length_map, length_seq. Qed.

Lemma In_indices lo hi k : In k (indices lo hi) <-> lo <= k < hi.
Proof.
  unfold indices. rewrite in_map_iff. split.
  - intros (n & <- & Hn). apply in_seq in Hn. lia.
  - intros H. exists (Z.to_nat (k - lo)). split; [lia|]. apply in_seq. lia.
Qed.

(** With fuel for every iteration the loop runs its body at lo, lo+1, ...,
    hi-1, in this order, and stops on its own test; more fuel changes
    nothing. *)
Lemma for_loop_fold {St : Type} (body : Z -> St -> St) hi fuel :
  forall i s, (Z.to_nat (hi - i) <= fuel)%nat ->
  for_loop fuel i hi body s = fold_left (fun s k => body k s) (indices i hi) s.
Proof.
  induction fuel as [|fuel IH]; intros i s Hf; cbn [for_loop].
  - rewrite indices_nil by lia. reflexivity.
  - destruct (Z.ltb_spec i hi) as [Hlt|Hge].
    + rewrite indices_cons by assumption. cbn [fold_left]. apply IH. lia.
    + rewrite indices_nil by lia. reflexivity.
Qed.

Lemma for_upto_fold {St : Type} (body : Z -> St -> St) lo hi s :
  for_upto lo hi body s = fold_left (fun s k => body k s) (indices lo hi) s.
Proof. unfold for_upto. now apply for_loop_fold. Qed.

Lemma fold_left_ext_In {A B : Type} (f g : A -> B -> A) (l : list B) :
  (forall x, In x l -> forall a, f a x = g a x) ->
  forall a, fold_left f l a = fold_left g l a.
Proof.
  induction l as [|x l IH]; intros H a; cbn [fold_left]; [reflexivity|].
  rewrite H by (left; reflexivity). apply IH. intros y Hy. apply H. now right.
Qed.

(** A loop over the indices of an array that reads the entry at its index
    is a fold over the entries. *)
Lemma fold_indices_nth {A St : Type} (f : A -> St -> St) (d : A) (l : list A) s :
  fold_left (fun s k => f (nth (Z.to_nat k) l d) s) (indices 0 (Z.of_nat (length l))) s
  = fold_left (fun s x => f x s) l s.
Proof.
  revert s. induction l as [|x l IH] using rev_ind; intros s.
  - reflexivity.
  - rewrite length_app, Nat2Z.inj_add. cbn [length Z.of_nat Pos.of_succ_nat].
    rewrite indices_snoc by lia. rewrite !fold_left_app. cbn [fold_left].
    rewrite Nat2Z.id, nth_middle. f_equal.
    rewrite <- IH. apply fold_left_ext_In.
    intros k Hk a. apply In_indices in Hk. rewrite app_nth1 by lia. reflexivity.
Qed.

Lemma acc_loop_fold fr :
  Fps.acc_loop fr = fold_left (fun a x => Fps.acc_add x a) fr Fps.acc_init.
Proof.
  unfold Fps.acc_loop. rewrite for_upto_fold.
  apply (fold_indices_nth Fps.acc_add nan fr).
Qed.

(** ** Handlers append to the record of calls *)

Lemma emits_nil w : emits [] w = w.
Proof. destruct w. unfold emits. cbn. now rewrite app_nil_r. Qed.

Lemma emits_emits a b w : emits b (emits a w) = emits (a ++ b) w.
Proof. unfold emits. cbn. now rewrite app_assoc. Qed.

Lemma calls_emits cs w : calls (emits cs w) = calls w ++ cs.
Proof. reflexivity. Qed.

Lemma made_emits cs w : made w (emits cs w) = cs.
Proof.
  unfold made. rewrite calls_emits, skipn_app, skipn_all, Nat.sub_diag. reflexivity.
Qed.

Lemma forget_calls_emits cs w : forget_calls (emits cs w) = forget_calls w.
Proof. reflexivity. Qed.

Lemma fold_emits {B : Type} (body : B -> World -> World) (out : B -> list Call) :
  (forall i w, body i w = emits (out i) w) ->
  forall l w, fold_left (fun s k => body k s) l w = emits (flat_map out l) w.
Proof.
  intros H l. induction l as [|i l IH]; intros w; cbn [fold_left flat_map].
  - symmetry. apply emits_nil.
  - now rewrite IH, H, emits_emits.
Qed.

Lemma for_upto_emits (body : Z -> World -> World) (out : Z -> list Call) lo hi w :
  (forall i w, body i w = emits (out i) w) ->
  for_upto lo hi body w = emits (flat_map out (indices lo hi)) w.
Proof. intros H. rewrite for_upto_fold. now apply fold_emits. Qed.

Lemma map_flat_map {A B C : Type} (g : B -> C) (f : A -> list B) l :
  map g (flat_map f l) = flat_map (fun x => map g (f x)) l.
Proof.
  induction l as [|x l IH]; cbn [flat_map map]; [reflexivity|].
  now rewrite map_app, IH.
Qed.

Lemma flat_map_ext_In {A B : Type} (f g : A -> list B) l :
  (forall x, In x l -> f x = g x) -> flat_map f l = flat_map g l.
Proof.
  induction l as [|x l IH]; intros H; cbn [flat_map]; [reflexivity|].
  rewrite H by (left; reflexivity). f_equal. apply IH. intros y Hy. apply H. now right.
Qed.

Lemma drawGrid_emits width height w :
  drawGrid width height w = emits (map Ctx (grid_path width height)) w.
Proof.
  unfold drawGrid, ctx, emit.
  rewrite (for_upto_emits _
    (fun j => [Ctx (moveTo 0 (j * (CELL_SIZE + 1) + 1));
               Ctx (moveTo ((CELL_SIZE + 1) * width + 1) (j * (CELL_SIZE + 1) + 1))]))
    by (intros; now rewrite emits_emits).
  rewrite (for_upto_emits _
    (fun i => [Ctx (moveTo (i * (CELL_SIZE + 1) + 1) 0);
               Ctx (lineTo (i * (CELL_SIZE + 1) + 1) ((CELL_SIZE + 1) * height + 1))]))
    by (intros; now rewrite emits_emits).
  rewrite !emits_emits. f_equal.
  unfold grid_path. rewrite !map_app, !map_flat_map. cbn [map app].
  now rewrite <- ?app_assoc.
Qed.

Lemma fill_cells_emits width height view c w :
  fill_cells width height view c w
  = emits (map Ctx (cell_fills width height view c)) w.
Proof.
  unfold fill_cells, cell_fills.
  rewrite (for_upto_emits _
    (fun row => flat_map (fun col =>
       if Cell_eqb (view (getIndex width row col)) c
       then [Ctx (fillRect (col * (CELL_SIZE + 1) + 1) (row * (CELL_SIZE + 1) + 1)
                    CELL_SIZE CELL_SIZE)]
       else []) (indices 0 width))).
  - f_equal. rewrite map_flat_map. apply flat_map_ext_In. intros row _.
    rewrite map_flat_map. apply flat_map_ext_In. intros col _.
    now destruct (Cell_eqb _ _).
  - intros row w0. apply for_upto_emits. intros col w1.
    destruct (Cell_eqb _ _); cbn [negb]; [reflexivity|].
    symmetry. apply emits_nil.
Qed.

Lemma drawCells_emits width height view w :
  drawCells width height view w = emits (cells_calls width height view) w.
Proof.
  unfold drawCells, ctx, universe, emit. rewrite !fill_cells_emits, !emits_emits.
  f_equal. unfold cells_calls. cbn [app map]. rewrite !map_app. cbn [map app].
  rewrite !map_app. cbn [map app]. now rewrite <- ?app_assoc.
Qed.

Lemma made_app w w' cs : calls w' = calls w ++ cs -> made w w' = cs.
Proof.
  intros H. unfold made. rewrite H, skipn_app, skipn_all, Nat.sub_diag. reflexivity.
Qed.

Lemma flat_map_const {A B : Type} (x : B) (l : list A) :
  flat_map (fun _ => [x]) l = repeat x (length l).
Proof. induction l as [|a l IH]; cbn; [reflexivity|]. now rewrite IH. Qed.

(** The engine advances of one frame step: one [tick] per value of the loop
    variable below the slider's value. *)
Lemma ticks_emits w :
  for_upto 0 (rangeSlider_value w) (fun _ w => w |> universe tick) w
  = emits (repeat (Universe tick) (Z.to_nat (rangeSlider_value w))) w.
Proof.
  rewrite (for_upto_emits _ (fun _ => [Universe tick])) by reflexivity.
  now rewrite flat_map_const, length_indices, Z.sub_0_r.
Qed.

(** The frame step, call by call. *)
Lemma renderLoop_calls width height now view w :
  calls (renderLoop width height now view w)
  = calls w
    ++ [performance_now now]
    ++ repeat (Universe tick) (Z.to_nat (rangeSlider_value w))
    ++ map Ctx (grid_path width height)
    ++ cells_calls width height view
    ++ [requestAnimationFrame (raf_next w)].
Proof.
  unfold renderLoop.
  rewrite drawCells_emits, drawGrid_emits, ticks_emits.
  cbn. now rewrite <- !app_assoc.
Qed.

(** ** The frame step *)

Lemma filter_repeat {A : Type} (f : A -> bool) (x : A) n :
  filter f (repeat x n) = if f x then repeat x n else [].
Proof.
  induction n as [|n IH]; cbn [repeat filter]; [now destruct (f x)|].
  rewrite IH. now destruct (f x).
Qed.

Lemma filter_none {A : Type} (f : A -> bool) (l : list A) :
  (forall x, In x l -> f x = false) -> filter f l = [].
Proof.
  induction l as [|x l IH]; intros H; cbn [filter]; [reflexivity|].
  rewrite H by (left; reflexivity). apply IH. intros y Hy. apply H. now right.
Qed.

Lemma is_tick_Ctx cs : filter is_tick (map Ctx cs) = [].
Proof.
  apply filter_none. intros x Hx. apply in_map_iff in Hx. now destruct Hx as (c & <- & _).
Qed.

Lemma is_tick_cells_calls width height view :
  filter is_tick (cells_calls width height view) = [].
Proof. unfold cells_calls. cbn [filter is_tick]. apply is_tick_Ctx. Qed.

(** C2.  One frame step reads the clock and records one sample, then
    advances the engine once per unit of the slider's value, then repaints
    the grid and then the cells, then requests the next frame and stores the
    handle the scheduler returned; it makes no other call, in no other
    order, and the advances are as many as the slider's value. *)
Theorem renderLoop_order width height now view w :
  let w' := renderLoop width height now view w in
  made w w'
  = [performance_now now]
    ++ repeat (Universe tick) (Z.to_nat (rangeSlider_value w))
    ++ map Ctx (grid_path width height)
    ++ cells_calls width height view
    ++ [requestAnimationFrame (raf_next w)]
  /\ frames w' = Fps.push_latest (frames w) (Fps.rate (now - lastFrameTimeStamp w))
  /\ lastFrameTimeStamp w' = now
  /\ Z.of_nat (length (filter is_tick (made w w'))) = Z.max 0 (rangeSlider_value w)
  /\ animationId w' = Some (raf_next w)
  /\ raf_pending w' = raf_pending w ++ [raf_next w].
Proof.
  intros w'.
  assert (Hmade : made w w'
    = [performance_now now]
      ++ repeat (Universe tick) (Z.to_nat (rangeSlider_value w))
      ++ map Ctx (grid_path width height)
      ++ cells_calls width height view
      ++ [requestAnimationFrame (raf_next w)])
    by (apply made_app, renderLoop_calls).
  assert (Hw' : w' = renderLoop width height now view w) by reflexivity.
  unfold renderLoop in Hw'.
  rewrite drawCells_emits, drawGrid_emits, ticks_emits in Hw'.
  split; [exact Hmade|].
  split; [now rewrite Hw'|].
  split; [now rewrite Hw'|].
  split; [|split; now rewrite Hw'].
  rewrite Hmade, !filter_app, filter_repeat, is_tick_Ctx, is_tick_cells_calls.
  cbn. rewrite app_nil_r, repeat_length. lia.
Qed.

(** ** The sample window *)

Lemma frames_render now w :
  frames (Fps.render now w)
  = Fps.push_latest (frames w) (Fps.rate (now - lastFrameTimeStamp w)).
Proof. reflexivity. Qed.

Lemma lastFrameTimeStamp_render now w :
  lastFrameTimeStamp (Fps.render now w) = now.
Proof. reflexivity. Qed.

Lemma length_latest {A : Type} n (l : list A) :
  length (latest n l) = Nat.min (length l) n.
Proof. unfold latest. rewrite length_skipn. lia. Qed.

Lemma latest_all {A : Type} n (l : list A) : (length l <= n)%nat -> latest n l = l.
Proof.
  intros H. unfold latest. replace (length l - n)%nat with O by lia. reflexivity.
Qed.

Lemma latest_snoc {A : Type} n (l : list A) x :
  (1 <= n)%nat -> latest n (latest n l ++ [x]) = latest n (l ++ [x]).
Proof.
  intros Hn.
  destruct (Nat.le_gt_cases (length l) n) as [Hle|Hgt].
  - now rewrite (latest_all n l).
  - unfold latest at 1 3. rewrite !length_app, length_latest. cbn [length].
    unfold latest.
    rewrite (skipn_app (length l + 1 - n) l).
    replace (length l + 1 - n - length l)%nat with O by lia. cbn [skipn].
    rewrite skipn_app, skipn_skipn, length_skipn.
    replace (Nat.min (length l) n + 1 - n - (length l - (length l - n)))%nat with O by lia.
    cbn [skipn]. do 2 f_equal. lia.
Qed.

(** Pushing onto a window of at most 100 entries keeps the latest 100:
    the entry shifted out is the oldest. *)
Lemma push_latest_latest fr x :
  (length fr <= 100)%nat -> Fps.push_latest fr x = latest 100 (fr ++ [x]).
Proof.
  intros H. unfold Fps.push_latest, latest. rewrite length_app. cbn [length].
  destruct (Nat.ltb_spec 100 (length fr + 1)) as [Hlt|Hge].
  - replace (length fr + 1 - 100)%nat with 1%nat by lia.
    now destruct fr.
  - replace (length fr + 1 - 100)%nat with O by lia. reflexivity.
Qed.

Lemma push_latest_fifo fr x :
  Fps.push_latest fr x
  = (if (length fr <? 100)%nat then fr else tl fr) ++ [x]
  \/ fr = [].
Proof.
  unfold Fps.push_latest. rewrite length_app. cbn [length].
  destruct fr as [|y fr]; [now right|left].
  cbn [length]. destruct (Nat.ltb_spec 100 (S (length fr) + 1)),
    (Nat.ltb_spec (S (length fr)) 100); try lia; reflexivity.
Qed.

(** The window after a run of frames: the latest 100 of all the rates
    recorded so far. *)
Lemma frames_renders ts :
  forall w hist,
  frames w = latest 100 hist ->
  frames (renders ts w) = latest 100 (hist ++ rates (lastFrameTimeStamp w) ts).
Proof.
  induction ts as [|t ts IH]; intros w hist Hw; cbn [renders fold_left rates].
  - now rewrite app_nil_r.
  - change (fold_left (fun w0 t0 => Fps.render t0 w0) ts (Fps.render t w))
      with (renders ts (Fps.render t w)).
    rewrite (IH (Fps.render t w) (hist ++ [Fps.rate (t - lastFrameTimeStamp w)])).
    + now rewrite lastFrameTimeStamp_render, <- app_assoc.
    + rewrite frames_render, push_latest_latest, Hw.
      * apply latest_snoc. lia.
      * rewrite Hw, length_latest. lia.
Qed.

Lemma length_rates t0 ts : length (rates t0 ts) = length ts.
Proof. revert t0. induction ts as [|t ts IH]; intros t0; cbn; [reflexivity|]. now rewrite IH. Qed.

(** C3.  From the empty window of the constructor, after any run of frames
    the window holds at most 100 entries, namely the latest 100 rates in
    the order they were recorded; a further frame appends its rate at the
    end and, once the window is full, drops the entry at the front; after
    150 frames the window is the rates of frames 51 to 150. *)
Theorem fps_window_latest_100 t0 label ts :
  let w := renders ts (initial t0 label) in
  (length (frames w) <= 100)%nat
  /\ frames w = latest 100 (rates t0 ts)
  /\ (forall now,
        frames (Fps.render now w)
        = (if (length (frames w) <? 100)%nat then frames w else tl (frames w))
          ++ [Fps.rate (now - lastFrameTimeStamp w)])
  /\ (length ts = 150%nat ->
        frames w = skipn 50 (rates t0 ts) /\ length (frames w) = 100%nat).
Proof.
  intros w.
  assert (Hw : frames w = latest 100 (rates t0 ts))
    by (apply (frames_renders ts (initial t0 label) [] eq_refl)).
  assert (Hlen : length (frames w) = Nat.min (length ts) 100)
    by (now rewrite Hw, length_latest, length_rates).
  split; [lia|]. split; [exact Hw|]. split.
  - intros now. rewrite frames_render.
    destruct (push_latest_fifo (frames w) (Fps.rate (now - lastFrameTimeStamp w)))
      as [H|H]; [exact H|].
    rewrite H. reflexivity.
  - intros H150. split; [|lia].
    rewrite Hw. unfold latest. now rewrite length_rates, H150.
Qed.

(** The run of 150 frames that are 17 ms apart. *)
Lemma fps_window_latest_100_witness :
  let ts := map (fun k => float_of_Z (17 * Z.of_nat k)) (seq 1 150) in
  let w := renders ts (initial 0 "") in
  frames w = skipn 50 (rates 0 ts) /\ length (frames w) = 100%nat.
Proof.
  intros ts w.
  apply (fps_window_latest_100 0%float ""%string ts). reflexivity.
Defined.

(** ** The cell index *)

(** C8.  On a grid of positive width, [getIndex] maps the valid (row,
    column) pairs one-to-one onto the indices 0 .. width*height - 1. *)
Theorem getIndex_bijection width height :
  0 < width ->
  (forall row col, 0 <= row < height -> 0 <= col < width ->
     0 <= getIndex width row col < width * height)
  /\ (forall row col row' col',
        0 <= row < height -> 0 <= col < width ->
        0 <= row' < height -> 0 <= col' < width ->
        getIndex width row col = getIndex width row' col' ->
        row = row' /\ col = col')
  /\ (forall idx, 0 <= idx < width * height ->
        exists row col, 0 <= row < height /\ 0 <= col < width
                        /\ getIndex width row col = idx).
Proof.
  intros Hw. unfold getIndex. repeat split.
  - nia.
  - nia.
  - assert (row = row') by nia. lia.
  - assert (row = row') by nia. subst. lia.
  - intros idx Hidx. exists (idx / width), (idx mod width).
    pose proof (Z.mod_pos_bound idx width Hw).
    pose proof (Z.div_mod idx width ltac:(lia)).
    repeat split; try lia.
    + apply Z.div_pos; lia.
    + apply Z.div_lt_upper_bound; lia.
Qed.

Lemma getIndex_bijection_witness :
  (forall row col, 0 <= row < 2 -> 0 <= col < 3 -> 0 <= getIndex 3 row col < 3 * 2)
  /\ (forall row col row' col',
        0 <= row < 2 -> 0 <= col < 3 -> 0 <= row' < 2 -> 0 <= col' < 3 ->
        getIndex 3 row col = getIndex 3 row' col' -> row = row' /\ col = col')
  /\ (forall idx, 0 <= idx < 3 * 2 ->
        exists row col, 0 <= row < 2 /\ 0 <= col < 3 /\ getIndex 3 row col = idx).
Proof. apply (getIndex_bijection 3 2). lia. Defined.

(** ** The grid lines *)

Lemma paints_app a b cv : paints (a ++ b) cv = paints b (paints a cv).
Proof. apply fold_left_app. Qed.

(** The loop of the vertical lines adds one segment per line to the path. *)
Lemma paints_verticals height l :
  forall cv,
  let cv' := paints (flat_map (fun i =>
               [moveTo (i * (CELL_SIZE + 1) + 1) 0;
                lineTo (i * (CELL_SIZE + 1) + 1) ((CELL_SIZE + 1) * height + 1)]) l) cv in
  path cv' = path cv ++ map (vertical_line height) l
  /\ strokeStyle cv' = strokeStyle cv
  /\ stroked cv' = stroked cv.
Proof.
  induction l as [|i l IH]; intros cv; cbn [flat_map map].
  - cbn. now rewrite app_nil_r.
  - cbn zeta in IH |- *. rewrite paints_app.
    destruct (IH (paints
      [moveTo (i * (CELL_SIZE + 1) + 1) 0;
       lineTo (i * (CELL_SIZE + 1) + 1) ((CELL_SIZE + 1) * height + 1)] cv))
      as (Hp & Hs & Hk).
    rewrite Hp, Hs, Hk. cbn. now rewrite <- app_assoc.
Qed.

(** The loop of the horizontal lines only moves the pen. *)
Lemma paints_horizontals width l :
  forall cv,
  let cv' := paints (flat_map (fun j =>
               [moveTo 0 (j * (CELL_SIZE + 1) + 1);
                moveTo ((CELL_SIZE + 1) * width + 1) (j * (CELL_SIZE + 1) + 1)]) l) cv in
  path cv' = path cv /\ strokeStyle cv' = strokeStyle cv /\ stroked cv' = stroked cv.
Proof.
  induction l as [|j l IH]; intros cv; cbn [flat_map].
  - now cbn.
  - cbn zeta in IH |- *. rewrite paints_app.
    destruct (IH (paints
      [moveTo 0 (j * (CELL_SIZE + 1) + 1);
       moveTo ((CELL_SIZE + 1) * width + 1) (j * (CELL_SIZE + 1) + 1)] cv))
      as (Hp & Hs & Hk).
    now rewrite Hp, Hs, Hk.
Qed.

Lemma stroked_grid_path width height cv :
  stroked (paints (grid_path width height) cv)
  = stroked cv
    ++ map (fun i => (GRID_COLOR, vertical_line height i)) (indices 0 (width + 1)).
Proof.
  unfold grid_path. rewrite !paints_app.
  set (cv0 := paints [beginPath; set_strokeStyle GRID_COLOR] cv).
  destruct (paints_verticals height (indices 0 (width + 1)) cv0) as (Hp & Hs & Hk).
  set (cv1 := paints _ cv0) in *.
  destruct (paints_horizontals width (indices 0 (height + 1)) cv1) as (Hp' & Hs' & Hk').
  set (cv2 := paints _ cv1) in *.
  cbn [paints fold_left paint stroked].
  rewrite Hk', Hs', Hp', Hk, Hs, Hp. subst cv0. cbn. now rewrite map_map.
Qed.

Lemma ctx_calls_map_Ctx cs : ctx_calls (map Ctx cs) = cs.
Proof.
  unfold ctx_calls. induction cs as [|c cs IH]; cbn; [reflexivity|]. now rewrite IH.
Qed.

(** C5 (as the code has it).  [drawGrid] makes the same context calls
    whatever the cells are, and what they stroke is the width+1 vertical
    lines in the grid color and nothing else: no horizontal segment is
    stroked, on any grid. *)
Theorem drawGrid_strokes_vertical_lines_only width height w cv :
  let drawn := ctx_calls (made w (drawGrid width height w)) in
  drawn = grid_path width height
  /\ stroked (paints drawn cv)
     = stroked cv
       ++ map (fun i => (GRID_COLOR, vertical_line height i)) (indices 0 (width + 1))
  /\ forall j,
       ~ In (GRID_COLOR, horizontal_line width j)
            (skipn (length (stroked cv)) (stroked (paints drawn cv))).
Proof.
  intros drawn.
  assert (Hd : drawn = grid_path width height).
  { subst drawn. now rewrite drawGrid_emits, made_emits, ctx_calls_map_Ctx. }
  split; [exact Hd|]. rewrite Hd, stroked_grid_path. split; [reflexivity|].
  intros j Hin.
  rewrite skipn_app, skipn_all, Nat.sub_diag in Hin. cbn [app skipn] in Hin.
  apply in_map_iff in Hin. destruct Hin as (i & Heq & _).
  unfold vertical_line, horizontal_line, CELL_SIZE in Heq.
  injection Heq as H1 H2 H3 H4. lia.
Qed.

(** On a 2 x 2 grid: three strokes, the vertical lines at x = 1, 12, 23;
    the horizontal lines at y = 1, 12, 23 are missing. *)
Example drawGrid_2x2 :
  map snd (stroked (paints (grid_path 2 2) (mkCanvas None [] "#000000" [])))
  = [vertical_line 2 0; vertical_line 2 1; vertical_line 2 2].
Proof. reflexivity. Qed.

(** ** Play and pause *)

Lemma is_cancel_Ctx cs : filter is_cancel (map Ctx cs) = [].
Proof.
  apply filter_none. intros x Hx. apply in_map_iff in Hx. now destruct Hx as (c & <- & _).
Qed.

(** A frame step cancels nothing. *)
Lemma renderLoop_no_cancel width height now view w :
  filter is_cancel (made w (renderLoop width height now view w)) = [].
Proof.
  rewrite (made_app _ _ _ (renderLoop_calls width height now view w)).
  rewrite !filter_app, filter_repeat. unfold cells_calls.
  cbn [filter is_cancel app]. now rewrite !is_cancel_Ctx.
Qed.

(** [pause()] leaves the same world, calls apart, whether run once or
    again and again. *)
Lemma pause_forget_calls w :
  forget_calls (pause w) = forget_calls (pause (forget_calls w)).
Proof. reflexivity. Qed.

Lemma pause_pause w : forget_calls (pause (pause w)) = forget_calls (pause w).
Proof. reflexivity. Qed.

Lemma pause_again n : forall w,
  forget_calls (Nat.iter n pause (pause w)) = forget_calls (pause w).
Proof.
  induction n as [|n IH]; intros w; [reflexivity|].
  change (Nat.iter (S n) pause (pause w)) with (pause (Nat.iter n pause (pause w))).
  rewrite (pause_forget_calls (Nat.iter n pause (pause w))), IH.
  rewrite <- (pause_forget_calls (pause w)). apply pause_pause.
Qed.

(** C4 (as the code has it).  [pause()] has no check of its own.  In a
    paused world (no handle stored) it still sets the play glyph, calls
    [cancelAnimationFrame(null)], which cancels nothing, and stores null:
    the world stays paused and everything but the label and the record of
    calls is as it was (window, clock reading, text, slider, scheduler).
    Calling it again and again changes nothing more.  The check for a
    handle is the one of the toggle button: a click on it cancels a frame
    only when a handle is stored, and in a paused world it plays and
    cancels nothing. *)
Theorem pause_when_paused width height w :
  isPaused w = true ->
  isPaused (pause w) = true
  /\ calls (pause w) = calls w ++ [cancelAnimationFrame None]
  /\ forget_calls (pause w) = forget_calls (set_playPause_textContent "▶" w)
  /\ raf_pending (pause w) = raf_pending w
  /\ raf_next (pause w) = raf_next w
  /\ (forall n, forget_calls (Nat.iter n pause (pause w)) = forget_calls (pause w))
  /\ (forall now view,
        playPauseButton_click width height now view w = play width height now view w)
  /\ (forall now view v,
        filter is_cancel (made v (playPauseButton_click width height now view v))
        = if isPaused v then [] else [cancelAnimationFrame (animationId v)]).
Proof.
  intros Hp.
  assert (Hid : animationId w = None)
    by (unfold isPaused in Hp; now destruct (animationId w)).
  split; [reflexivity|].
  split; [unfold pause, platform_cancel; cbn; now rewrite Hid|].
  split.
  { unfold pause, platform_cancel, forget_calls, set_playPause_textContent,
      set_animationId. cbn. now rewrite Hid. }
  split; [unfold pause, platform_cancel; cbn; now rewrite Hid|].
  split; [reflexivity|].
  split; [intros n; apply pause_again|].
  split.
  - intros now view. unfold playPauseButton_click. now rewrite Hp.
  - intros now view v. unfold playPauseButton_click.
    destruct (isPaused v).
    + unfold play.
      pose proof (renderLoop_no_cancel width height now view
                    (set_playPause_textContent "⏸" v)) as H.
      exact H.
    + unfold pause, made. cbn.
      rewrite skipn_app, skipn_all, Nat.sub_diag. reflexivity.
Qed.

(** The world the script starts in: [pause()] there, once more. *)
Lemma pause_when_paused_witness :
  isPaused (pause (initial 0 "")) = true
  /\ calls (pause (initial 0 ""))
     = calls (initial 0 "") ++ [cancelAnimationFrame None]
  /\ forget_calls (pause (initial 0 ""))
     = forget_calls (set_playPause_textContent "▶" (initial 0 "")).
Proof.
  destruct (pause_when_paused 10 10 (initial 0 "") eq_refl) as (H1 & H2 & H3 & _).
  exact (conj H1 (conj H2 H3)).
Defined.

(** Against C4 as stated: [pause()] is not the guarded no-op.  In the
    paused world the script leaves behind, [pause()] calls
    [cancelAnimationFrame(null)] where the guarded one makes no call; and
    before the script's own [pause()], with the button's text still empty,
    the world is paused too and [pause()] changes the label. *)
Lemma pause_is_not_guarded :
  let w := startup 2 2 0 "" (fun _ => Dead) in
  let w0 := initial 0 "" in
  isPaused w = true
  /\ made w (pause w) = [cancelAnimationFrame None]
  /\ made w (pause_guarded w) = []
  /\ pause w <> pause_guarded w
  /\ isPaused w0 = true
  /\ playPause_textContent w0 = ""%string
  /\ playPause_textContent (pause w0) = "▶"%string
  /\ forget_calls (pause w0) <> forget_calls (pause_guarded w0).
Proof.
  intros w w0. repeat split.
  - intros H. apply (f_equal (fun x => length (calls x))) in H.
    vm_compute in H. discriminate H.
  - intros H. apply (f_equal playPause_textContent) in H.
    vm_compute in H. discriminate H.
Qed.

(** ** Binary64: order *)

Lemma SF_compare_refl x : SF_is_nan x = false -> SFcompare x x = Some Eq.
Proof.
  destruct x as [s|s| |s m e]; cbn; try discriminate; intros _.
  - reflexivity.
  - now destruct s.
  - rewrite Z.compare_refl, Pos.compare_cont_refl. now destruct s.
Qed.

Lemma SF_compare_nan x y :
  SFcompare x y = None <-> SF_is_nan x = true \/ SF_is_nan y = true.
Proof.
  destruct x as [sx|sx| |sx mx ex], y as [sy|sy| |sy my ey]; cbn;
    split; intros H; try discriminate; auto;
    try (destruct H; discriminate).
Qed.

Ltac compare_cases :=
  repeat match goal with
  | H : context [Pos.compare_cont Eq ?a ?b] |- _ =>
      change (Pos.compare_cont Eq a b) with (Pos.compare a b) in H
  | |- context [Pos.compare_cont Eq ?a ?b] =>
      change (Pos.compare_cont Eq a b) with (Pos.compare a b)
  end;
  repeat match goal with
  | H : context [Z.compare ?a ?b] |- _ => destruct (Z.compare_spec a b); cbn in H
  | |- context [Z.compare ?a ?b] => destruct (Z.compare_spec a b); cbn
  | H : context [Pos.compare ?a ?b] |- _ => destruct (Pos.compare_spec a b); cbn in H
  | |- context [Pos.compare ?a ?b] => destruct (Pos.compare_spec a b); cbn
  end;
  subst; try discriminate; try reflexivity; try lia.

Lemma SF_leb_trans x y z : SFleb x y = true -> SFleb y z = true -> SFleb x z = true.
Proof.
  unfold SFleb.
  destruct x as [sx|sx| |sx mx ex], y as [sy|sy| |sy my ey], z as [sz|sz| |sz mz ez];
    cbn; try discriminate; try reflexivity;
    try destruct sx; try destruct sy; try destruct sz; cbn;
    try discriminate; try reflexivity; intros H1 H2; compare_cases.
Qed.

Lemma SF_ltb_leb x y : SFltb x y = true -> SFleb x y = true.
Proof. unfold SFltb, SFleb. now destruct (SFcompare x y) as [[]|]. Qed.

Lemma SF_compare_antisym x y : SFcompare y x = option_map CompOpp (SFcompare x y).
Proof.
  destruct x as [sx|sx| |sx mx ex], y as [sy|sy| |sy my ey]; cbn;
    try reflexivity; try destruct sx; try destruct sy; cbn; try reflexivity;
    rewrite (Z.compare_antisym ey ex);
    change (Pos.compare_cont Eq mx my) with (Pos.compare mx my);
    change (Pos.compare_cont Eq my mx) with (Pos.compare my mx);
    rewrite (Pos.compare_antisym my mx);
    destruct (ey ?= ex); cbn; try reflexivity;
    now destruct (my ?= mx)%positive.
Qed.

Lemma SF_not_ltb_leb x y :
  SF_is_nan x = false -> SF_is_nan y = false -> SFltb x y = false -> SFleb y x = true.
Proof.
  intros Hx Hy. unfold SFltb, SFleb. rewrite (SF_compare_antisym x y).
  destruct (SFcompare x y) as [[]|] eqn:E; cbn; try reflexivity; try discriminate.
  apply SF_compare_nan in E. destruct E; congruence.
Qed.

Section FloatOrder.

Local Open Scope float_scope.

Lemma is_nan_spec x : is_nan x = SF_is_nan (Prim2SF x).
Proof.
  unfold is_nan. rewrite FloatAxioms.eqb_spec. unfold SFeqb.
  destruct (SF_is_nan (Prim2SF x)) eqn:E.
  - destruct (Prim2SF x); try discriminate. reflexivity.
  - now rewrite SF_compare_refl.
Qed.

Lemma float_leb_refl x : is_nan x = false -> (x <=? x) = true.
Proof.
  rewrite is_nan_spec, FloatAxioms.leb_spec. intros H. unfold SFleb.
  now rewrite SF_compare_refl.
Qed.

Lemma float_leb_trans x y z :
  (x <=? y) = true -> (y <=? z) = true -> (x <=? z) = true.
Proof. rewrite !FloatAxioms.leb_spec. apply SF_leb_trans. Qed.

Lemma float_ltb_leb x y : (x <? y) = true -> (x <=? y) = true.
Proof. rewrite FloatAxioms.ltb_spec, FloatAxioms.leb_spec. apply SF_ltb_leb. Qed.

Lemma float_not_ltb_leb x y :
  is_nan x = false -> is_nan y = false -> (x <? y) = false -> (y <=? x) = true.
Proof.
  rewrite !is_nan_spec, FloatAxioms.ltb_spec, FloatAxioms.leb_spec.
  apply SF_not_ltb_leb.
Qed.

Lemma float_leb_not_nan x y :
  (x <=? y) = true -> is_nan x = false /\ is_nan y = false.
Proof.
  rewrite !is_nan_spec, FloatAxioms.leb_spec. unfold SFleb.
  destruct (SFcompare (Prim2SF x) (Prim2SF y)) eqn:E; try discriminate.
  intros _.
  destruct (SF_is_nan (Prim2SF x)) eqn:Ex, (SF_is_nan (Prim2SF y)) eqn:Ey; auto;
    assert (SFcompare (Prim2SF x) (Prim2SF y) = None)
      by (apply SF_compare_nan; auto);
    congruence.
Qed.

Lemma float_leb_infinity x : is_nan x = false -> (x <=? infinity) = true.
Proof.
  rewrite is_nan_spec, FloatAxioms.leb_spec.
  change (Prim2SF infinity) with (S754_infinity false).
  destruct (Prim2SF x) as [s|s| |s m e]; try discriminate; intros _; now destruct s.
Qed.

Lemma float_neg_infinity_leb x : is_nan x = false -> (neg_infinity <=? x) = true.
Proof.
  rewrite is_nan_spec, FloatAxioms.leb_spec.
  change (Prim2SF neg_infinity) with (S754_infinity true).
  destruct (Prim2SF x) as [s|s| |s m e]; try discriminate; intros _; now destruct s.
Qed.

Lemma float_infinity_leb x : (infinity <=? x) = true -> x = infinity.
Proof.
  rewrite FloatAxioms.leb_spec. change (Prim2SF infinity) with (S754_infinity false).
  intros H. apply Prim2SF_inj. change (Prim2SF infinity) with (S754_infinity false).
  destruct (Prim2SF x) as [s|s| |s m e]; try discriminate;
    destruct s; try discriminate; reflexivity.
Qed.

Lemma float_leb_neg_infinity x : (x <=? neg_infinity) = true -> x = neg_infinity.
Proof.
  rewrite FloatAxioms.leb_spec. change (Prim2SF neg_infinity) with (S754_infinity true).
  intros H. apply Prim2SF_inj. change (Prim2SF neg_infinity) with (S754_infinity true).
  destruct (Prim2SF x) as [s|s| |s m e]; try discriminate;
    destruct s; try discriminate; reflexivity.
Qed.

(** [Math.min] and [Math.max] of two numbers that are not NaN: one of the
    two, below (above) both. *)
Lemma Math_min_cases x y :
  is_nan x = false -> is_nan y = false ->
  (Math_min x y = x \/ Math_min x y = y)
  /\ (Math_min x y <=? x) = true /\ (Math_min x y <=? y) = true.
Proof.
  intros Hx Hy. unfold Math_min. rewrite Hx, Hy. cbn [orb].
  destruct (x <? y) eqn:Exy.
  - repeat split; auto using float_leb_refl, float_ltb_leb.
  - destruct (y <? x) eqn:Eyx.
    + repeat split; auto using float_leb_refl, float_ltb_leb.
    + destruct (get_sign x); repeat split;
        auto using float_leb_refl, float_not_ltb_leb.
Qed.

Lemma Math_max_cases x y :
  is_nan x = false -> is_nan y = false ->
  (Math_max x y = x \/ Math_max x y = y)
  /\ (x <=? Math_max x y) = true /\ (y <=? Math_max x y) = true.
Proof.
  intros Hx Hy. unfold Math_max. rewrite Hx, Hy. cbn [orb].
  destruct (x <? y) eqn:Exy.
  - repeat split; auto using float_leb_refl, float_ltb_leb.
  - destruct (y <? x) eqn:Eyx.
    + repeat split; auto using float_leb_refl, float_ltb_leb.
    + destruct (get_sign x); repeat split;
        auto using float_leb_refl, float_not_ltb_leb.
Qed.

End FloatOrder.

(** ** The statistics of a window *)

Section Statistics.

Local Open Scope float_scope.

Lemma no_nan_cons x l : no_nan (x :: l) = true <-> is_nan x = false /\ no_nan l = true.
Proof.
  unfold no_nan. cbn [forallb]. rewrite andb_true_iff, negb_true_iff. reflexivity.
Qed.

Lemma no_nan_In l x : no_nan l = true -> In x l -> is_nan x = false.
Proof.
  unfold no_nan. rewrite forallb_forall. intros H Hx.
  apply negb_true_iff. now apply H.
Qed.

(** What the loop of the statistics keeps, from any start that is not NaN:
    the running minimum is the start's or an entry, and is below the start's
    and below every entry; likewise above for the maximum; the sum is the
    entries added one after the other. *)
Lemma acc_fold_invariant l : forall a,
  no_nan l = true ->
  is_nan (Fps.acc_min a) = false -> is_nan (Fps.acc_max a) = false ->
  let a' := fold_left (fun a x => Fps.acc_add x a) l a in
  is_nan (Fps.acc_min a') = false /\ is_nan (Fps.acc_max a') = false
  /\ (Fps.acc_min a' = Fps.acc_min a \/ In (Fps.acc_min a') l)
  /\ (Fps.acc_max a' = Fps.acc_max a \/ In (Fps.acc_max a') l)
  /\ (Fps.acc_min a' <=? Fps.acc_min a) = true
  /\ (Fps.acc_max a <=? Fps.acc_max a') = true
  /\ (forall x, In x l ->
        (Fps.acc_min a' <=? x) = true /\ (x <=? Fps.acc_max a') = true)
  /\ Fps.acc_sum a' = fold_left PrimFloat.add l (Fps.acc_sum a).
Proof.
  induction l as [|x l IH]; intros a Hl Hmin Hmax; cbn [fold_left].
  - repeat split; auto using float_leb_refl. all: contradiction.
  - apply no_nan_cons in Hl. destruct Hl as [Hx Hl].
    destruct (Math_min_cases x (Fps.acc_min a) Hx Hmin) as (Hm1 & Hm2 & Hm3).
    destruct (Math_max_cases x (Fps.acc_max a) Hx Hmax) as (HM1 & HM2 & HM3).
    assert (Hmin1 : is_nan (Fps.acc_min (Fps.acc_add x a)) = false)
      by (cbn; destruct Hm1 as [-> | ->]; assumption).
    assert (Hmax1 : is_nan (Fps.acc_max (Fps.acc_add x a)) = false)
      by (cbn; destruct HM1 as [-> | ->]; assumption).
    destruct (IH (Fps.acc_add x a) Hl Hmin1 Hmax1)
      as (Ia & Ib & Ic & Id & Ie & If & Ig & Ih).
    cbn [Fps.acc_add Fps.acc_min Fps.acc_max Fps.acc_sum] in *.
    split; [assumption|]. split; [assumption|].
    split.
    { destruct Ic as [Ic|Ic]; [|right; now right].
      rewrite Ic. destruct Hm1 as [-> | ->]; [right; now left|now left]. }
    split.
    { destruct Id as [Id|Id]; [|right; now right].
      rewrite Id. destruct HM1 as [-> | ->]; [right; now left|now left]. }
    split; [eauto using float_leb_trans|].
    split; [eauto using float_leb_trans|].
    split; [|assumption].
    intros y [<-|Hy]; [|now apply Ig].
    split; eauto using float_leb_trans.
Qed.

(** The minimum and the maximum of the statistics of a window with an
    entry and without NaN are entries of the window, below and above every
    entry. *)
Lemma statistics_extrema fr :
  fr <> [] -> no_nan fr = true ->
  let st := Fps.statistics fr in
  In (Fps.min st) fr /\ In (Fps.max st) fr
  /\ (forall x, In x fr -> (Fps.min st <=? x) = true /\ (x <=? Fps.max st) = true).
Proof.
  intros Hne Hnan. unfold Fps.statistics. rewrite acc_loop_fold.
  cbn [Fps.min Fps.max].
  destruct (acc_fold_invariant fr Fps.acc_init Hnan eq_refl eq_refl)
    as (_ & _ & Hc & Hd & _ & _ & Hg & _).
  set (a' := fold_left (fun a x => Fps.acc_add x a) fr Fps.acc_init) in *.
  destruct fr as [|x0 fr]; [contradiction|].
  destruct (Hg x0 (or_introl eq_refl)) as [Hlo Hhi].
  split; [|split; [|exact Hg]].
  - destruct Hc as [Hc|Hc]; [|assumption].
    rewrite Hc in Hlo. apply float_infinity_leb in Hlo.
    rewrite Hc. left. exact Hlo.
  - destruct Hd as [Hd|Hd]; [|assumption].
    rewrite Hd in Hhi. apply float_leb_neg_infinity in Hhi.
    rewrite Hd. left. exact Hhi.
Qed.

(** The sum of the loop is the entries added in order, whatever they are. *)
Lemma acc_sum_fold l : forall a,
  Fps.acc_sum (fold_left (fun a x => Fps.acc_add x a) l a)
  = fold_left PrimFloat.add l (Fps.acc_sum a).
Proof.
  induction l as [|x l IH]; intros a; cbn [fold_left]; [reflexivity|].
  now rewrite IH.
Qed.

End Statistics.

(** ** Binary64: rounding, division, the rate *)

Lemma shr_1_nonneg mrs : 0 <= shr_m mrs -> 0 <= shr_m (shr_1 mrs).
Proof.
  destruct mrs as [m r s]. cbn [shr_m]. intros H.
  destruct m as [|p|p]; [| |lia]; cbn; [lia|].
  destruct p; cbn; lia.
Qed.

Lemma iter_pos_shr_1_nonneg p : forall mrs,
  0 <= shr_m mrs -> 0 <= shr_m (iter_pos shr_1 p mrs).
Proof.
  induction p as [p IH|p IH|]; intros mrs H; cbn [iter_pos].
  - apply IH, IH, shr_1_nonneg, H.
  - apply IH, IH, H.
  - apply shr_1_nonneg, H.
Qed.

Lemma shr_nonneg mrs e n : 0 <= shr_m mrs -> 0 <= shr_m (fst (shr mrs e n)).
Proof.
  intros H. unfold shr. destruct n; cbn [fst]; try assumption.
  now apply iter_pos_shr_1_nonneg.
Qed.

Lemma shr_fexp_nonneg prec emax m e l :
  0 <= m -> 0 <= shr_m (fst (shr_fexp prec emax m e l)).
Proof.
  intros H. unfold shr_fexp. apply shr_nonneg. now destruct l as [|[]].
Qed.

Lemma round_nearest_even_nonneg m l : 0 <= m -> 0 <= round_nearest_even m l.
Proof.
  intros H. unfold round_nearest_even. destruct l as [|[]]; try lia.
  destruct (Z.even m); lia.
Qed.

(** Rounding a mantissa that is not negative gives a zero, a finite number
    or an infinity of the sign asked for, never NaN. *)
Lemma binary_round_aux_sign prec emax sx mx ex lx :
  0 <= mx ->
  match binary_round_aux prec emax sx mx ex lx with
  | S754_zero s | S754_infinity s | S754_finite s _ _ => s = sx
  | S754_nan => False
  end.
Proof.
  intros H. unfold binary_round_aux.
  pose proof (shr_fexp_nonneg prec emax mx ex lx H) as H1.
  destruct (shr_fexp prec emax mx ex lx) as [mrs' e']. cbn [fst] in H1.
  pose proof (shr_fexp_nonneg prec emax
    (round_nearest_even (shr_m mrs') (loc_of_shr_record mrs')) e' loc_Exact
    (round_nearest_even_nonneg _ _ H1)) as H2.
  destruct (shr_fexp prec emax _ e' loc_Exact) as [mrs'' e'']. cbn [fst] in H2.
  destruct (shr_m mrs'') as [|p|p]; [reflexivity| |lia].
  now destruct (e'' <=? emax - prec).
Qed.

Lemma binary_round_aux_not_nan prec emax sx mx ex lx :
  0 <= mx -> SF_is_nan (binary_round_aux prec emax sx mx ex lx) = false.
Proof.
  intros H. pose proof (binary_round_aux_sign prec emax sx mx ex lx H) as Hr.
  now destruct (binary_round_aux prec emax sx mx ex lx).
Qed.

Lemma binary_normalize_not_nan prec emax m e szero :
  SF_is_nan (binary_normalize prec emax m e szero) = false.
Proof.
  unfold binary_normalize, binary_round.
  destruct m as [|p|p]; [reflexivity| |];
    destruct (shl_align _ _ _) as [mz ez]; now apply binary_round_aux_not_nan.
Qed.

Lemma SFdiv_core_binary_nonneg prec emax mx ex my ey :
  0 <= fst (fst (SFdiv_core_binary prec emax (Zpos mx) ex (Zpos my) ey)).
Proof.
  unfold SFdiv_core_binary.
  set (s := _ - _ - _).
  set (m' := match s with
             | Zpos _ => Z.shiftl (Zpos mx) s
             | Z0 => Zpos mx
             | Zneg _ => 0
             end).
  assert (Hm : 0 <= m').
  { subst m'. destruct s; try lia. apply Z.shiftl_nonneg. lia. }
  pose proof (Z.div_pos m' (Zpos my) Hm ltac:(lia)) as Hq.
  unfold Z.div in Hq. destruct (Z.div_eucl m' (Zpos my)) as [q r]. exact Hq.
Qed.

(** Dividing by a positive finite number keeps the sign and makes no NaN. *)
Lemma SFdiv_finite_pos x my ey :
  SF_is_nan x = false ->
  SF_is_nan (SF64div x (S754_finite false my ey)) = false
  /\ (SF_nonneg x = true -> SF_nonneg (SF64div x (S754_finite false my ey)) = true).
Proof.
  destruct x as [s|s| |s mx ex]; cbn; try discriminate; intros _.
  - now split.
  - split; [reflexivity|]. now destruct s.
  - pose proof (SFdiv_core_binary_nonneg prec emax mx ex my ey) as Hq.
    destruct (SFdiv_core_binary prec emax (Zpos mx) ex (Zpos my) ey) as [[mz ez] lz].
    cbn [fst] in Hq.
    pose proof (binary_round_aux_sign prec emax (xorb s false) mz ez lz Hq) as Hr.
    destruct (binary_round_aux prec emax (xorb s false) mz ez lz);
      try contradiction; subst; rewrite xorb_false_r; split; auto.
Qed.

Lemma SFsub_finite x y :
  SF_finite x = true -> SF_finite y = true -> SF_is_nan (SF64sub x y) = false.
Proof.
  destruct x as [sx|sx| |sx mx ex], y as [sy|sy| |sy my ey]; cbn; try discriminate;
    intros _ _; try reflexivity.
  - now destruct sx, sy.
  - apply binary_normalize_not_nan.
Qed.

Lemma SFdiv_one x :
  SF_is_nan x = false -> SF_is_nan (SF64div (Prim2SF 1) x) = false.
Proof.
  change (Prim2SF 1) with (S754_finite false 4503599627370496 (-52)).
  destruct x as [s|s| |s mx ex]; cbn; try discriminate; intros _; try reflexivity.
  pose proof (SFdiv_core_binary_nonneg prec emax 4503599627370496 (-52) mx ex) as Hq.
  destruct (SFdiv_core_binary prec emax _ (-52) (Zpos mx) ex) as [[mz ez] lz].
  cbn [fst] in Hq. now apply binary_round_aux_not_nan.
Qed.

Lemma SFmul_finite x sy my ey :
  SF_is_nan x = false -> SF_is_nan (SF64mul x (S754_finite sy my ey)) = false.
Proof.
  destruct x as [s|s| |s mx ex]; cbn; try discriminate; intros _; try reflexivity.
  apply binary_round_aux_not_nan. lia.
Qed.

Section Rate.

Local Open Scope float_scope.

(** The rate of a delta that is a number is a number (it may be infinite);
    the rate of NaN is NaN. *)
Lemma rate_not_nan delta : is_nan delta = false -> is_nan (Fps.rate delta) = false.
Proof.
  rewrite !is_nan_spec. unfold Fps.rate. rewrite FloatAxioms.mul_spec, FloatAxioms.div_spec. intros H.
  change (Prim2SF 1000) with (S754_finite false 8796093022208000 (-43)).
  now apply SFmul_finite, SFdiv_one.
Qed.


Lemma sub_finite_not_nan x y :
  finite_number x = true -> finite_number y = true -> is_nan (x - y) = false.
Proof.
  unfold finite_number. rewrite is_nan_spec, FloatAxioms.sub_spec. apply SFsub_finite.
Qed.

Lemma no_nan_app l l' : no_nan (l ++ l') = no_nan l && no_nan l'.
Proof. apply forallb_app. Qed.

Lemma no_nan_push_latest fr x :
  no_nan fr = true -> is_nan x = false -> no_nan (Fps.push_latest fr x) = true.
Proof.
  intros Hfr Hx. unfold Fps.push_latest.
  assert (H : no_nan (fr ++ [x]) = true).
  { rewrite no_nan_app, Hfr. cbn. now rewrite Hx. }
  destruct (_ <? _)%nat; [|exact H].
  destruct (fr ++ [x]) as [|y l]; [reflexivity|].
  now apply no_nan_cons in H.
Qed.

(** The windows the monitor reaches when the clock returns finite numbers
    hold no NaN. *)
Lemma renders_no_nan ts : forall w,
  no_nan (frames w) = true ->
  finite_number (lastFrameTimeStamp w) = true ->
  forallb finite_number ts = true ->
  no_nan (frames (renders ts w)) = true.
Proof.
  induction ts as [|t ts IH]; intros w Hfr Hlast Hts; [exact Hfr|].
  cbn [forallb] in Hts. apply andb_true_iff in Hts. destruct Hts as [Ht Hts].
  change (renders (t :: ts) w) with (renders ts (Fps.render t w)).
  apply IH; [|exact Ht|exact Hts].
  rewrite frames_render. apply no_nan_push_latest; [exact Hfr|].
  now apply rate_not_nan, sub_finite_not_nan.
Qed.

End Rate.

(** ** The monitor and a delta that is no frame time *)

Section Monitor.

Local Open Scope float_scope.



Lemma push_latest_not_nil fr x : Fps.push_latest fr x <> [].
Proof.
  unfold Fps.push_latest. destruct (_ <? _)%nat eqn:E.
  - destruct fr as [|y fr]; [discriminate E|]. cbn [app tl]. now destruct fr.
  - now destruct fr.
Qed.




(** C10 (as the code has it).  For a window with an entry and without NaN
    the minimum and the maximum of the statistics are entries of the
    window, the least and the greatest, so minimum <= maximum; the mean is
    the binary64 sum of the entries, added in order from 0, divided in
    binary64 by their number.  The windows the monitor reaches from its
    constructor, when the clock returns finite numbers, hold no NaN. *)
Theorem window_statistics :
  (forall fr,
     fr <> [] -> no_nan fr = true ->
     let st := Fps.statistics fr in
     In (Fps.min st) fr /\ In (Fps.max st) fr
     /\ (forall x, In x fr -> (Fps.min st <=? x) = true /\ (x <=? Fps.max st) = true)
     /\ (Fps.min st <=? Fps.max st) = true
     /\ Fps.mean st
        = fold_left PrimFloat.add fr 0 / float_of_Z (Z.of_nat (length fr)))
  /\ (forall t0 label ts,
        forallb finite_number (t0 :: ts) = true ->
        no_nan (frames (renders ts (initial t0 label))) = true).
Proof.
  split.
  - intros fr Hne Hnan st.
    destruct (statistics_extrema fr Hne Hnan) as (Hmin & Hmax & Hall).
    fold st in Hmin, Hmax, Hall.
    split; [exact Hmin|]. split; [exact Hmax|]. split; [exact Hall|]. split.
    + destruct (Hall _ Hmin) as [_ Hle]. exact Hle.
    + subst st. unfold Fps.statistics. cbn [Fps.mean].
      now rewrite acc_loop_fold, acc_sum_fold.
  - intros t0 label ts Hfin. cbn [forallb] in Hfin.
    apply andb_true_iff in Hfin. destruct Hfin as [H0 Hts].
    now apply renders_no_nan.
Qed.

Lemma window_statistics_witness :
  let st := Fps.statistics [60; 30; 120] in
  In (Fps.min st) [60; 30; 120] /\ In (Fps.max st) [60; 30; 120]
  /\ (forall x, In x [60; 30; 120] ->
        (Fps.min st <=? x) = true /\ (x <=? Fps.max st) = true)
  /\ (Fps.min st <=? Fps.max st) = true
  /\ Fps.mean st
     = fold_left PrimFloat.add [60; 30; 120] 0
       / float_of_Z (Z.of_nat (length [60; 30; 120])).
Proof.
  apply (proj1 window_statistics [60; 30; 120]); [discriminate|reflexivity].
Defined.

(** Against C10 as stated: three frames 10 s apart.  Each rate is
    1/10000*1000, the binary64 number written 0.1; minimum and maximum are
    that number; the sum 0.1 + 0.1 + 0.1 is 0.30000000000000004 in binary64
    and its third is 0.10000000000000002, the next number above 0.1: the
    mean is above the maximum. *)
Lemma mean_above_maximum :
  let fr := frames (renders [10000; 20000; 30000] (initial 0 "")) in
  let st := Fps.statistics fr in
  fr = [0x1.999999999999ap-4; 0x1.999999999999ap-4; 0x1.999999999999ap-4]
  /\ Fps.min st = 0x1.999999999999ap-4
  /\ Fps.max st = 0x1.999999999999ap-4
  /\ Fps.mean st = 0x1.999999999999bp-4
  /\ (Fps.max st <? Fps.mean st) = true
  /\ (Fps.mean st <=? Fps.max st) = false.
Proof. vm_compute. repeat split. Qed.

(** The same at a usual frame time: five frames 17 ms apart. *)
Example mean_above_maximum_at_17_ms :
  let fr := frames (renders [17; 34; 51; 68; 85] (initial 0 "")) in
  let st := Fps.statistics fr in
  fr = repeat (Fps.rate 17) 5
  /\ Fps.max st = Fps.rate 17
  /\ Fps.mean st = next_up (Fps.rate 17)
  /\ (Fps.mean st <=? Fps.max st) = false.
Proof. vm_compute. repeat split. Qed.

End Monitor.

(** ** The click on the canvas *)

Section Click.

Local Open Scope float_scope.

Lemma Prim2SF_cell_pitch :
  Prim2SF (float_of_Z (CELL_SIZE + 1)) = S754_finite false 6192449487634432 (-49).
Proof. reflexivity. Qed.

Lemma leb_zero_nonneg x : (0 <=? x) = true -> SF_nonneg (Prim2SF x) = true.
Proof.
  rewrite FloatAxioms.leb_spec. change (Prim2SF 0) with (S754_zero false).
  destruct (Prim2SF x) as [s|s| |s m e]; try discriminate; try reflexivity;
    now destruct s.
Qed.

(** The floor of a raster coordinate divided by the cell pitch: a number
    when the coordinate is one, and not negative when the coordinate is
    not. *)
Lemma floor_div_pitch_not_nan c :
  is_nan c = false ->
  Math_floor (c / float_of_Z (CELL_SIZE + 1)) <> NotANumber.
Proof.
  rewrite is_nan_spec. intros H. unfold Math_floor.
  rewrite FloatAxioms.div_spec, Prim2SF_cell_pitch.
  destruct (SFdiv_finite_pos (Prim2SF c) 6192449487634432 (-49) H) as [Hn _].
  destruct (SF64div _ _) as [s|s| |s m e]; try discriminate.
  now destruct s.
Qed.

Lemma floor_div_pitch_nonneg c :
  (0 <=? c) = true ->
  Math_floor (c / float_of_Z (CELL_SIZE + 1)) = PlusInfinity
  \/ exists z, Math_floor (c / float_of_Z (CELL_SIZE + 1)) = Int z /\ (0 <= z)%Z.
Proof.
  intros H. pose proof (leb_zero_nonneg c H) as Hc.
  assert (Hnan : SF_is_nan (Prim2SF c) = false)
    by (now destruct (Prim2SF c)).
  unfold Math_floor. rewrite FloatAxioms.div_spec, Prim2SF_cell_pitch.
  destruct (SFdiv_finite_pos (Prim2SF c) 6192449487634432 (-49) Hnan) as [_ Hs].
  specialize (Hs Hc).
  destruct (SF64div _ _) as [s|s| |s m e]; try discriminate.
  - right. exists 0%Z. split; [reflexivity|lia].
  - left. cbn in Hs. now destruct s.
  - right. cbn in Hs. destruct s; [discriminate|].
    eexists. split; [reflexivity|]. apply Z.shiftl_nonneg. cbn. lia.
Qed.

(** The clamp from above, alone: [Math.min] with the last index. *)
Lemma clamp_above v last :
  v <> NotANumber -> integral_leb (Math_min_integral v (Int last)) (Int last) = true.
Proof.
  destruct v as [z| | |]; cbn; intros H; try reflexivity; try contradiction;
    apply Z.leb_le; lia.
Qed.

Lemma clamp_nonneg v last :
  (0 <= last)%Z ->
  v = PlusInfinity \/ (exists z, v = Int z /\ (0 <= z)%Z) ->
  exists r, Math_min_integral v (Int last) = Int r /\ (0 <= r <= last)%Z.
Proof.
  intros Hl [->|(z & -> & Hz)]; cbn.
  - exists last. split; [reflexivity|lia].
  - exists (Z.min z last). split; [reflexivity|lia].
Qed.

Lemma in_range_Int lo hi r : (lo <= r <= hi)%Z -> in_range lo hi (Int r) = true.
Proof.
  intros H. unfold in_range. cbn. apply andb_true_iff. split; apply Z.leb_le; lia.
Qed.

(** C1 (as the code has it).  The grid coordinates of a click are clamped
    from above only: for every raster position that is a number the row is
    at most height-1 and the column at most width-1; they are in
    [0, height-1] and [0, width-1] when the raster coordinate is not
    negative. *)
Theorem click_clamps_from_above width height left top :
  (is_nan top = false ->
     integral_leb (click_row height top) (Int (height - 1)) = true)
  /\ (is_nan left = false ->
        integral_leb (click_col width left) (Int (width - 1)) = true)
  /\ ((0 < height)%Z -> (0 <=? top) = true ->
        in_range 0 (height - 1) (click_row height top) = true)
  /\ ((0 < width)%Z -> (0 <=? left) = true ->
        in_range 0 (width - 1) (click_col width left) = true).
Proof.
  unfold click_row, click_col. repeat split.
  - intros H. now apply clamp_above, floor_div_pitch_not_nan.
  - intros H. now apply clamp_above, floor_div_pitch_not_nan.
  - intros Hh H.
    destruct (clamp_nonneg _ (height - 1) ltac:(lia) (floor_div_pitch_nonneg top H))
      as (r & -> & Hr).
    now apply in_range_Int.
  - intros Hw H.
    destruct (clamp_nonneg _ (width - 1) ltac:(lia) (floor_div_pitch_nonneg left H))
      as (r & -> & Hr).
    now apply in_range_Int.
Qed.

(** A click right of and below the grid, on a 10 x 10 grid. *)
Lemma click_clamps_from_above_witness :
  integral_leb (click_row 10 500) (Int (10 - 1)) = true
  /\ in_range 0 (10 - 1) (click_col 10 500) = true.
Proof.
  destruct (click_clamps_from_above 10 10 500 500) as (H1 & _ & _ & H4).
  split; [apply H1; reflexivity|apply H4; [lia|reflexivity]].
Defined.

(** Against C1 as stated: a canvas laid out at (8, 8) and shown at its
    raster size, and a click event at the origin of the page, as
    [canvas.click()] dispatches it.  The raster position is (-8, -8); row
    and column are -1, outside the grid, and go to [toggle_cell] as they
    are. *)
Lemma click_left_of_origin :
  let boundingRect := mkRect 8 8 111 111 in
  let event := mkEvent 0 0 false false in
  let w := initial 0 "" in
  canvasLeft 10 boundingRect event = (-8)
  /\ canvasTop 10 boundingRect event = (-8)
  /\ click_row 10 (canvasTop 10 boundingRect event) = Int (-1)
  /\ click_col 10 (canvasLeft 10 boundingRect event) = Int (-1)
  /\ in_range 0 (10 - 1) (click_row 10 (canvasTop 10 boundingRect event)) = false
  /\ in_range 0 (10 - 1) (click_col 10 (canvasLeft 10 boundingRect event)) = false
  /\ filter is_mutation
       (made w (canvas_click 10 10 boundingRect event (fun _ => Dead) w))
     = [Universe (toggle_cell (Int (-1)) (Int (-1)))].
Proof. vm_compute. repeat split. Qed.

(** C9.  The canvas is (CELL_SIZE+1)*width+1 by (CELL_SIZE+1)*height+1
    pixels, and for every raster position inside it, 0 <= x < canvas.width
    and 0 <= y < canvas.height, the click handler computes a column in
    [0, width) and a row in [0, height). *)
Theorem in_canvas_click_in_grid width height x y :
  (0 < width)%Z -> (0 < height)%Z ->
  (0 <=? x) = true -> (x <? float_of_Z (canvas_width width)) = true ->
  (0 <=? y) = true -> (y <? float_of_Z (canvas_height height)) = true ->
  canvas_width width = ((CELL_SIZE + 1) * width + 1)%Z
  /\ canvas_height height = ((CELL_SIZE + 1) * height + 1)%Z
  /\ exists row col,
       click_row height y = Int row /\ click_col width x = Int col
       /\ (0 <= row < height)%Z /\ (0 <= col < width)%Z.
Proof.
  intros Hw Hh Hx _ Hy _. split; [reflexivity|]. split; [reflexivity|].
  unfold click_row, click_col.
  destruct (clamp_nonneg _ (height - 1) ltac:(lia) (floor_div_pitch_nonneg y Hy))
    as (r & Hr & Hrange).
  destruct (clamp_nonneg _ (width - 1) ltac:(lia) (floor_div_pitch_nonneg x Hx))
    as (c & Hc & Hcrange).
  exists r, c. repeat split; try assumption; lia.
Qed.

(** The last pixel of a 10 x 10 grid's canvas, (110, 110): the floor is 10,
    the clamp makes it 9. *)
Lemma in_canvas_click_in_grid_witness :
  exists row col,
    click_row 10 110 = Int row /\ click_col 10 110 = Int col
    /\ (0 <= row < 10)%Z /\ (0 <= col < 10)%Z.
Proof.
  apply (in_canvas_click_in_grid 10 10 110 110); solve [lia | reflexivity].
Defined.

Example last_pixel_is_clamped :
  Math_floor (110 / float_of_Z (CELL_SIZE + 1)) = Int 10
  /\ click_row 10 110 = Int 9.
Proof. vm_compute. split; reflexivity. Qed.

End Click.

(** ** A click end to end *)

Lemma is_mutation_Ctx cs : filter is_mutation (map Ctx cs) = [].
Proof.
  apply filter_none. intros x Hx. apply in_map_iff in Hx. now destruct Hx as (c & <- & _).
Qed.

Lemma is_mutation_cells_calls width height view :
  filter is_mutation (cells_calls width height view) = [].
Proof. unfold cells_calls. cbn [filter is_mutation]. apply is_mutation_Ctx. Qed.

(** The calls of a click: the one engine command chosen by the modifier
    keys, then the repaint. *)
Lemma canvas_click_calls width height boundingRect event view w :
  let row := click_row height (canvasTop height boundingRect event) in
  let col := click_col width (canvasLeft width boundingRect event) in
  made w (canvas_click width height boundingRect event view w)
  = Universe (if ctrlKey event then make_glider row col
              else if shiftKey event then make_pulsar row col
              else toggle_cell row col)
    :: map Ctx (grid_path width height) ++ cells_calls width height view.
Proof.
  intros row col. apply made_app. unfold canvas_click.
  rewrite drawCells_emits, drawGrid_emits. fold row col.
  destruct (ctrlKey event); [|destruct (shiftKey event)];
    unfold universe, emit; rewrite !emits_emits; reflexivity.
Qed.

(** C7.  On a 10 x 10 grid with cells of 10 pixels, a click that maps to the
    raster position (25, 35) with neither modifier key held gives column 2
    and row 3, and the only engine command of the handler is
    [toggle_cell(3, 2)], once; the rest is the repaint. *)
Theorem click_25_35_toggles_3_2 boundingRect event view w :
  ctrlKey event = false -> shiftKey event = false ->
  canvasLeft 10 boundingRect event = 25%float ->
  canvasTop 10 boundingRect event = 35%float ->
  let w' := canvas_click 10 10 boundingRect event view w in
  CELL_SIZE = 10
  /\ click_col 10 (canvasLeft 10 boundingRect event) = Int 2
  /\ click_row 10 (canvasTop 10 boundingRect event) = Int 3
  /\ made w w'
     = Universe (toggle_cell (Int 3) (Int 2))
       :: map Ctx (grid_path 10 10) ++ cells_calls 10 10 view
  /\ filter is_mutation (made w w') = [Universe (toggle_cell (Int 3) (Int 2))].
Proof.
  intros Hctrl Hshift Hleft Htop w'.
  assert (Hcol : click_col 10 (canvasLeft 10 boundingRect event) = Int 2)
    by (now rewrite Hleft).
  assert (Hrow : click_row 10 (canvasTop 10 boundingRect event) = Int 3)
    by (now rewrite Htop).
  assert (Hmade : made w w'
    = Universe (toggle_cell (Int 3) (Int 2))
      :: map Ctx (grid_path 10 10) ++ cells_calls 10 10 view).
  { subst w'. rewrite canvas_click_calls, Hctrl, Hshift, Hcol, Hrow. reflexivity. }
  repeat split; try assumption.
  rewrite Hmade. cbn [filter is_mutation].
  now rewrite filter_app, is_mutation_Ctx, is_mutation_cells_calls.
Qed.

(** The canvas laid out at (8, 8) and shown at its raster size, 111 x 111,
    clicked at the pixel (33, 43) of the page. *)
Lemma click_25_35_toggles_3_2_witness :
  let boundingRect := mkRect 8 8 111 111 in
  let event := mkEvent 33 43 false false in
  let w := initial 0 "" in
  filter is_mutation (made w (canvas_click 10 10 boundingRect event (fun _ => Dead) w))
  = [Universe (toggle_cell (Int 3) (Int 2))].
Proof.
  intros boundingRect event w.
  apply (click_25_35_toggles_3_2 boundingRect event (fun _ => Dead) w);
    reflexivity.
Defined.

(** * More of the script *)

(** ** The cells repaint *)

Lemma indices_shift lo n : indices lo (lo + n) = map (Z.add lo) (indices 0 n).
Proof.
  unfold indices. rewrite map_map.
  replace (lo + n - lo) with (n - 0) by lia. apply map_ext. intros k. lia.
Qed.

Lemma indices_app lo mid hi :
  lo <= mid <= hi -> indices lo hi = indices lo mid ++ indices mid hi.
Proof.
  intros [H1 H2]. replace hi with (mid + Z.of_nat (Z.to_nat (hi - mid))) by lia.
  induction (Z.to_nat (hi - mid)) as [|k IH].
  - rewrite Z.add_0_r, (indices_nil mid mid) by lia. now rewrite app_nil_r.
  - replace (mid + Z.of_nat (S k)) with (mid + Z.of_nat k + 1) by lia.
    rewrite !indices_snoc by lia. now rewrite IH, app_assoc.
Qed.

Lemma flat_map_map {A B C : Type} (f : B -> list C) (g : A -> B) l :
  flat_map f (map g l) = flat_map (fun x => f (g x)) l.
Proof. induction l as [|x l IH]; cbn; [reflexivity|]. now rewrite IH. Qed.

Lemma flat_map_flat_map {A B C : Type} (f : B -> list C) (g : A -> list B) l :
  flat_map f (flat_map g l) = flat_map (fun x => flat_map f (g x)) l.
Proof.
  induction l as [|x l IH]; cbn; [reflexivity|]. now rewrite flat_map_app, IH.
Qed.

(** The two loops of a pass visit the indices of the view in increasing
    order, each once. *)
Lemma row_major width height :
  0 <= width ->
  flat_map (fun row => map (getIndex width row) (indices 0 width)) (indices 0 height)
  = indices 0 (width * height).
Proof.
  intros Hw. destruct (Z.le_gt_cases height 0) as [Hh|Hh].
  - rewrite (indices_nil 0 height), (indices_nil 0 (width * height)) by nia. reflexivity.
  - replace height with (Z.of_nat (Z.to_nat height)) by lia.
    induction (Z.to_nat height) as [|n IH]; [now rewrite Z.mul_0_r|].
    replace (Z.of_nat (S n)) with (Z.of_nat n + 1) by lia.
    rewrite indices_snoc, flat_map_app, IH by lia. cbn [flat_map].
    rewrite app_nil_r.
    rewrite (indices_app 0 (width * Z.of_nat n) (width * (Z.of_nat n + 1))) by nia.
    f_equal.
    replace (width * (Z.of_nat n + 1)) with (width * Z.of_nat n + width) by lia.
    rewrite indices_shift. apply map_ext. intros c. unfold getIndex. lia.
Qed.

Lemma getIndex_div_mod width row col :
  0 <= col < width ->
  getIndex width row col / width = row /\ getIndex width row col mod width = col.
Proof.
  intros H. unfold getIndex. split.
  - rewrite Z.add_comm, Z.div_add by lia. rewrite Z.div_small by lia. lia.
  - rewrite Z.add_comm, Z.mod_add by lia. now apply Z.mod_small.
Qed.

(** One pass of [drawCells] is one scan of the view from index 0 to
    width*height - 1. *)
Lemma cell_fills_scan width height view c :
  0 <= width ->
  cell_fills width height view c
  = flat_map (fun idx =>
      if Cell_eqb (view idx) c
      then [fillRect ((idx mod width) * (CELL_SIZE + 1) + 1)
              ((idx / width) * (CELL_SIZE + 1) + 1) CELL_SIZE CELL_SIZE]
      else []) (indices 0 (width * height)).
Proof.
  intros Hw. rewrite <- (row_major width height Hw), flat_map_flat_map.
  unfold cell_fills. apply flat_map_ext_In. intros row _.
  rewrite flat_map_map. apply flat_map_ext_In. intros col Hcol.
  apply In_indices in Hcol.
  destruct (getIndex_div_mod width row col ltac:(lia)) as [-> ->]. reflexivity.
Qed.

Lemma fills_scan (p : Z -> bool) (X Y : Z -> Z) W H l rest s :
  fills (flat_map (fun idx => if p idx then [fillRect (X idx) (Y idx) W H] else []) l
         ++ rest) s
  = map (fun idx => mkFill s (X idx) (Y idx) W H) (filter p l) ++ fills rest s.
Proof.
  induction l as [|idx l IH]; cbn [flat_map filter map app]; [reflexivity|].
  destruct (p idx); cbn [app fills map]; now rewrite IH.
Qed.

Lemma ctx_calls_cells_calls width height view :
  ctx_calls (cells_calls width height view)
  = [beginPath; set_fillStyle ALIVE_COLOR]
    ++ cell_fills width height view Alive
    ++ [set_fillStyle DEAD_COLOR]
    ++ cell_fills width height view Dead
    ++ [stroke].
Proof.
  unfold cells_calls, ctx_calls. cbn [flat_map app].
  apply (ctx_calls_map_Ctx).
Qed.

Lemma length_cells_in_state view n :
  (length (cells_in_state view Alive n) + length (cells_in_state view Dead n))%nat
  = Z.to_nat n.
Proof.
  unfold cells_in_state.
  replace (Z.to_nat n) with (length (indices 0 n))
    by (rewrite length_indices; f_equal; lia).
  induction (indices 0 n) as [|idx l IH]; cbn [filter length]; [reflexivity|].
  destruct (view idx); cbn [Cell_eqb length]; lia.
Qed.

Lemma cells_in_state_all view c n :
  (forall idx, view idx = c) -> cells_in_state view c n = indices 0 n.
Proof.
  intros H. unfold cells_in_state.
  induction (indices 0 n) as [|idx l IH]; cbn [filter]; [reflexivity|].
  rewrite H, IH. now destruct c.
Qed.

Lemma cells_in_state_none view c c' n :
  (forall idx, view idx = c) -> c' <> c -> cells_in_state view c' n = [].
Proof.
  intros H Hc. unfold cells_in_state. apply filter_none. intros idx _.
  rewrite H. destruct c, c'; try reflexivity; contradiction.
Qed.

(** X1.  On a grid of width >= 0, [drawCells] fills every cell of the view
    exactly once: first the squares of the alive cells in the alive color,
    in index order, then the squares of the dead cells in the dead color;
    width*height squares in all.  When every cell is dead it fills no
    alive square and width*height dead ones. *)
Theorem drawCells_fills_every_cell_once width height view w fillStyle :
  0 <= width ->
  let drawn := ctx_calls (made w (drawCells width height view w)) in
  let n := width * height in
  fills drawn fillStyle
  = map (cell_fill width ALIVE_COLOR) (cells_in_state view Alive n)
    ++ map (cell_fill width DEAD_COLOR) (cells_in_state view Dead n)
  /\ length (fills drawn fillStyle) = Z.to_nat n
  /\ ((forall idx, view idx = Dead) ->
        fills drawn fillStyle = map (cell_fill width DEAD_COLOR) (indices 0 n)).
Proof.
  intros Hw drawn n.
  assert (Hf : fills drawn fillStyle
    = map (cell_fill width ALIVE_COLOR) (cells_in_state view Alive n)
      ++ map (cell_fill width DEAD_COLOR) (cells_in_state view Dead n)).
  { subst drawn. rewrite drawCells_emits, made_emits, ctx_calls_cells_calls.
    rewrite !cell_fills_scan by assumption. cbn [app fills].
    rewrite fills_scan. cbn [fills]. rewrite fills_scan. cbn [fills].
    now rewrite app_nil_r. }
  split; [exact Hf|]. split.
  - rewrite Hf, length_app, !length_map. apply length_cells_in_state.
  - intros Hall. rewrite Hf.
    rewrite (cells_in_state_none view Dead Alive n Hall) by discriminate.
    now rewrite (cells_in_state_all view Dead n Hall).
Qed.

(** X2.  [drawCells] reads the view at the indices 0 .. width*height - 1
    only: two views that agree there give the same calls. *)
Theorem drawCells_reads_the_view_only width height view view' w :
  (forall idx, 0 <= idx < width * height -> view idx = view' idx) ->
  drawCells width height view w = drawCells width height view' w.
Proof.
  intros H. rewrite !drawCells_emits. f_equal. unfold cells_calls.
  assert (Hc : forall c, cell_fills width height view c = cell_fills width height view' c).
  { intros c. unfold cell_fills. apply flat_map_ext_In. intros row Hrow.
    apply flat_map_ext_In. intros col Hcol.
    apply In_indices in Hrow. apply In_indices in Hcol.
    rewrite H; [reflexivity|]. unfold getIndex. nia. }
  now rewrite !Hc.
Qed.

(** The square of a cell of the grid: apart from the square of any other
    cell, and inside the canvas. *)
Lemma cell_fill_geometry width height idx idx' c c' :
  0 < width ->
  0 <= idx < width * height -> 0 <= idx' < width * height ->
  (idx <> idx' -> overlap (cell_fill width c idx) (cell_fill width c' idx') = false)
  /\ 1 <= fill_x (cell_fill width c idx)
  /\ fill_x (cell_fill width c idx) + fill_w (cell_fill width c idx)
     <= canvas_width width - 1
  /\ 1 <= fill_y (cell_fill width c idx)
  /\ fill_y (cell_fill width c idx) + fill_h (cell_fill width c idx)
     <= canvas_height height - 1.
Proof.
  intros Hw Hi Hi'.
  pose proof (Z.mod_pos_bound idx width Hw) as Hm.
  pose proof (Z.mod_pos_bound idx' width Hw) as Hm'.
  pose proof (Z.div_mod idx width ltac:(lia)) as Hd.
  pose proof (Z.div_mod idx' width ltac:(lia)) as Hd'.
  assert (Hr : 0 <= idx / width < height).
  { split; [apply Z.div_pos; lia|apply Z.div_lt_upper_bound; lia]. }
  unfold overlap, cell_fill, canvas_width, canvas_height, CELL_SIZE.
  cbn [fill_x fill_y fill_w fill_h].
  set (col := idx mod width) in *. set (row := idx / width) in *.
  set (col' := idx' mod width) in *. set (row' := idx' / width) in *.
  repeat split; try lia.
  intros Hne.
  assert (Hcr : col <> col' \/ row <> row') by nia.
  rewrite !andb_false_iff, !Z.ltb_ge. lia.
Qed.

(** What [drawCells] fills, as a list of squares of cells. *)
Lemma drawCells_fills width height view w fillStyle :
  0 <= width ->
  fills (ctx_calls (made w (drawCells width height view w))) fillStyle
  = map (cell_fill width ALIVE_COLOR) (cells_in_state view Alive (width * height))
    ++ map (cell_fill width DEAD_COLOR) (cells_in_state view Dead (width * height)).
Proof.
  intros Hw. rewrite drawCells_emits, made_emits, ctx_calls_cells_calls.
  rewrite !cell_fills_scan by assumption. cbn [app fills].
  rewrite fills_scan. cbn [fills]. rewrite fills_scan. cbn [fills].
  now rewrite app_nil_r.
Qed.

Lemma NoDup_map_injective {A B : Type} (f : A -> B) (l : list A) :
  (forall x y, f x = f y -> x = y) -> NoDup l -> NoDup (map f l).
Proof.
  intros Hf Hl. induction Hl as [|x l Hx Hl IH]; cbn [map]; constructor; [|exact IH].
  intros Hin. apply in_map_iff in Hin. destruct Hin as (y & Hy & Hyl).
  apply Hf in Hy. now subst.
Qed.

Lemma NoDup_indices lo hi : NoDup (indices lo hi).
Proof.
  unfold indices. apply NoDup_map_injective; [|apply seq_NoDup].
  intros x y H. lia.
Qed.

(** The indices of the cells [drawCells] fills, in the order it fills them:
    no index twice, and none outside the view. *)
Lemma cells_filled_NoDup view n :
  NoDup (cells_in_state view Alive n ++ cells_in_state view Dead n)
  /\ forall idx, In idx (cells_in_state view Alive n ++ cells_in_state view Dead n) ->
       0 <= idx < n.
Proof.
  unfold cells_in_state. split.
  - apply NoDup_app; try (apply NoDup_filter, NoDup_indices).
    intros idx Ha Hd. apply filter_In in Ha. apply filter_In in Hd.
    destruct Ha as [_ Ha], Hd as [_ Hd]. destruct (view idx); discriminate.
  - intros idx H. apply in_app_or in H.
    destruct H as [H|H]; apply filter_In in H; destruct H as [H _];
      apply In_indices in H; lia.
Qed.

(** X3.  On a grid of positive width, the squares [drawCells] fills are
    CELL_SIZE on a side, lie inside the canvas one pixel in from its edges,
    and no two of them overlap. *)
Theorem cell_squares_disjoint_inside_canvas width height view w fillStyle :
  0 < width ->
  let drawn := fills (ctx_calls (made w (drawCells width height view w))) fillStyle in
  (forall a, In a drawn ->
     fill_w a = CELL_SIZE /\ fill_h a = CELL_SIZE
     /\ 1 <= fill_x a /\ fill_x a + fill_w a <= canvas_width width - 1
     /\ 1 <= fill_y a /\ fill_y a + fill_h a <= canvas_height height - 1)
  /\ (forall i j a b,
        nth_error drawn i = Some a -> nth_error drawn j = Some b -> i <> j ->
        overlap a b = false).
Proof.
  intros Hw drawn.
  set (n := width * height).
  set (A := cells_in_state view Alive n). set (D := cells_in_state view Dead n).
  set (L := map (pair ALIVE_COLOR) A ++ map (pair DEAD_COLOR) D).
  assert (Hd : drawn = map (fun p => cell_fill width (fst p) (snd p)) L).
  { subst drawn L. rewrite drawCells_fills by lia. fold n A D.
    now rewrite map_app, !map_map. }
  assert (Hsnd : map snd L = A ++ D).
  { subst L. rewrite map_app, !map_map. cbn [snd]. now rewrite !map_id. }
  destruct (cells_filled_NoDup view n) as [Hnd Hin]. fold A D in Hnd, Hin.
  rewrite <- Hsnd in Hnd, Hin.
  split.
  - intros a Ha. rewrite Hd in Ha. apply in_map_iff in Ha.
    destruct Ha as (p & <- & Hp).
    assert (Hidx : 0 <= snd p < n) by (apply Hin, in_map, Hp).
    destruct (cell_fill_geometry width height (snd p) (snd p) (fst p) (fst p)
                Hw Hidx Hidx) as (_ & H1 & H2 & H3 & H4).
    repeat split; assumption.
  - intros i j a b Ha Hb Hij. rewrite Hd, nth_error_map in Ha, Hb.
    destruct (nth_error L i) as [p|] eqn:Ei; [|discriminate].
    destruct (nth_error L j) as [q|] eqn:Ej; [|discriminate].
    cbn [option_map] in Ha, Hb. injection Ha as <-. injection Hb as <-.
    assert (Hp : 0 <= snd p < n) by (apply Hin, in_map, (nth_error_In _ _ Ei)).
    assert (Hq : 0 <= snd q < n) by (apply Hin, in_map, (nth_error_In _ _ Ej)).
    destruct (cell_fill_geometry width height (snd p) (snd q) (fst p) (fst q)
                Hw Hp Hq) as (H & _).
    apply H. intros Heq. apply Hij.
    apply (proj1 (NoDup_nth_error (map snd L)) Hnd).
    + rewrite length_map. apply nth_error_Some. congruence.
    + rewrite !nth_error_map, Ei, Ej. cbn [option_map]. now rewrite Heq.
Qed.

(** ** What the repaint strokes *)

Lemma paints_fill_calls l : forall cv,
  Forall (fun c => match c with
                   | fillRect _ _ _ _ | set_fillStyle _ => True
                   | _ => False
                   end) l ->
  paints l cv = cv.
Proof.
  induction l as [|c l IH]; intros cv H; [reflexivity|].
  inversion H as [|c0 l0 Hc Hl]; subst. cbn [paints fold_left].
  destruct c; try contradiction; cbn [paint]; now apply IH.
Qed.

Lemma paints_cell_fills width height view c cv :
  paints (cell_fills width height view c) cv = cv.
Proof.
  apply paints_fill_calls. unfold cell_fills.
  apply Forall_flat_map, Forall_forall. intros row _.
  apply Forall_flat_map, Forall_forall. intros col _.
  destruct (Cell_eqb _ _); repeat constructor.
Qed.

Lemma ctx_calls_app a b : ctx_calls (a ++ b) = ctx_calls a ++ ctx_calls b.
Proof. apply flat_map_app. Qed.

Lemma paints_cells_calls width height view cv :
  paints (ctx_calls (cells_calls width height view)) cv
  = mkCanvas None [] (strokeStyle cv) (stroked cv).
Proof.
  rewrite ctx_calls_cells_calls, !paints_app, !paints_cell_fills.
  cbn. now rewrite app_nil_r.
Qed.

(** X4.  [drawCells] strokes nothing, whatever path is current: its
    [beginPath] empties the path before its [stroke].  So the repaint,
    [drawGrid] then [drawCells], strokes each vertical grid line once. *)
Theorem repaint_strokes_each_line_once width height view w cv :
  stroked (paints (ctx_calls (made w (drawCells width height view w))) cv)
  = stroked cv
  /\ stroked (paints (ctx_calls
       (made w (drawCells width height view (drawGrid width height w)))) cv)
     = stroked cv
       ++ map (fun i => (GRID_COLOR, vertical_line height i)) (indices 0 (width + 1)).
Proof.
  split.
  - rewrite drawCells_emits, made_emits, paints_cells_calls. reflexivity.
  - rewrite drawCells_emits, drawGrid_emits, emits_emits, made_emits.
    rewrite ctx_calls_app, ctx_calls_map_Ctx, paints_app, paints_cells_calls.
    cbn [stroked]. apply stroked_grid_path.
Qed.

(** ** The page as a machine *)

(** The world after a frame step, calls apart. *)
Lemma renderLoop_world width height now view w :
  forget_calls (renderLoop width height now view w)
  = mkWorld (Fps.push_latest (frames w) (Fps.rate (now - lastFrameTimeStamp w))) now
      (fps_textContent (Fps.render now w)) (Some (raf_next w))
      (playPause_textContent w) (rangeSlider_value w) (S (raf_next w))
      (raf_pending w ++ [raf_next w]) [].
Proof.
  unfold renderLoop. rewrite drawCells_emits, drawGrid_emits, ticks_emits. reflexivity.
Qed.

Lemma canvas_click_world width height boundingRect event view w :
  forget_calls (canvas_click width height boundingRect event view w) = forget_calls w.
Proof.
  unfold canvas_click. rewrite drawCells_emits, drawGrid_emits.
  now destruct (ctrlKey event), (shiftKey event).
Qed.

Lemma resetRand_click_emits width height view w :
  resetRand_click width height view w
  = emits (Universe reset_rand :: map Ctx (grid_path width height)
           ++ cells_calls width height view) w.
Proof.
  unfold resetRand_click. rewrite drawCells_emits, drawGrid_emits.
  unfold universe, emit. now rewrite !emits_emits.
Qed.

Lemma resetDead_click_emits width height view w :
  resetDead_click width height view w
  = emits (Universe reset_dead :: map Ctx (grid_path width height)
           ++ cells_calls width height view) w.
Proof.
  unfold resetDead_click. rewrite drawCells_emits, drawGrid_emits.
  unfold universe, emit. now rewrite !emits_emits.
Qed.

Lemma consistent_forget_calls w w' :
  forget_calls w = forget_calls w' -> consistent w -> consistent w'.
Proof.
  intros H. unfold consistent.
  replace (animationId w') with (animationId (forget_calls w')) by reflexivity.
  replace (raf_pending w') with (raf_pending (forget_calls w')) by reflexivity.
  replace (raf_next w') with (raf_next (forget_calls w')) by reflexivity.
  replace (rangeSlider_value w') with (rangeSlider_value (forget_calls w')) by reflexivity.
  now rewrite <- H.
Qed.

Lemma consistent_renderLoop width height now view w :
  raf_pending w = [] -> 1 <= rangeSlider_value w <= 50 ->
  consistent (renderLoop width height now view w).
Proof.
  intros Hp Hs.
  apply (consistent_forget_calls (forget_calls (renderLoop width height now view w)));
    [reflexivity|].
  rewrite renderLoop_world, Hp. unfold consistent. cbn.
  repeat split; try lia. repeat constructor.
Qed.

Lemma consistent_paused w :
  consistent w -> isPaused w = true -> raf_pending w = [].
Proof.
  unfold consistent, isPaused. intros (H & _). now destruct (animationId w).
Qed.

Lemma consistent_running w :
  consistent w -> isPaused w = false -> exists h, animationId w = Some h /\ raf_pending w = [h].
Proof.
  unfold consistent, isPaused. intros (H & _). destruct (animationId w) as [h|]; [|discriminate].
  intros _. now exists h.
Qed.

Lemma consistent_pause w : consistent w -> consistent (pause w).
Proof.
  intros Hc. destruct Hc as (Hq & Hf & Hs). unfold consistent, pause, platform_cancel. cbn.
  destruct (animationId w) as [h|].
  - rewrite Hq. cbn. rewrite Nat.eqb_refl. cbn. repeat split; try lia. constructor.
  - rewrite Hq. repeat split; try lia. constructor.
Qed.

Lemma consistent_handle width height e w : consistent w -> consistent (handle width height e w).
Proof.
  intros Hc. destruct e as [now view|rect ev view|view|view|v|now view]; cbn [handle].
  - unfold playPauseButton_click. destruct (isPaused w) eqn:Hp.
    + unfold play. apply consistent_renderLoop.
      * exact (consistent_paused w Hc Hp).
      * apply Hc.
    + now apply consistent_pause.
  - apply (consistent_forget_calls w); [|exact Hc].
    symmetry. apply canvas_click_world.
  - apply (consistent_forget_calls w); [|exact Hc].
    now rewrite resetRand_click_emits.
  - apply (consistent_forget_calls w); [|exact Hc].
    now rewrite resetDead_click_emits.
  - destruct Hc as (Hq & Hf & Hs). unfold consistent, set_rangeSlider_value. cbn.
    repeat split; try assumption; lia.
  - unfold platform_frame. destruct (raf_pending w) as [|h rest] eqn:Hq; [exact Hc|].
    apply consistent_renderLoop; [|apply Hc]. cbn.
    destruct Hc as (Hq' & _). rewrite Hq in Hq'.
    destruct (animationId w); [|discriminate]. now injection Hq'.
Qed.

Lemma consistent_startup width height t0 label view :
  consistent (startup width height t0 label view).
Proof.
  unfold startup. apply consistent_pause.
  rewrite drawCells_emits, drawGrid_emits.
  unfold consistent. cbn. repeat split; try lia. constructor.
Qed.

(** X5.  Whatever happens to the page after the script has run, the stored
    handle and the scheduler agree: at most one frame callback is queued,
    and none exactly when the page is paused; the slider stays within
    1 .. 50. *)
Theorem page_keeps_one_frame_queued width height t0 label view es :
  let w := run width height es (startup width height t0 label view) in
  consistent w
  /\ (length (raf_pending w) <= 1)%nat
  /\ (isPaused w = true <-> raf_pending w = []).
Proof.
  intros w.
  assert (Hc : consistent w).
  { subst w. generalize (consistent_startup width height t0 label view).
    generalize (startup width height t0 label view).
    induction es as [|e es IH]; intros w0 H0; [exact H0|].
    cbn [run fold_left]. apply IH. now apply consistent_handle. }
  split; [exact Hc|].
  destruct (isPaused w) eqn:Hp.
  - rewrite (consistent_paused w Hc Hp). cbn. split; [lia|tauto].
  - destruct (consistent_running w Hc Hp) as (h & _ & ->). cbn.
    split; [lia|]. split; discriminate.
Qed.

Lemma made_same w w' : calls w' = calls w -> made w w' = [].
Proof. intros H. apply made_app. now rewrite H, app_nil_r. Qed.

Lemma consistent_run width height es : forall w,
  consistent w -> consistent (run width height es w).
Proof.
  induction es as [|e es IH]; intros w H; [exact H|].
  cbn [run fold_left]. apply IH. now apply consistent_handle.
Qed.

Lemma is_tick_grid_cells width height view :
  filter is_tick (map Ctx (grid_path width height) ++ cells_calls width height view) = [].
Proof. now rewrite filter_app, is_tick_Ctx, is_tick_cells_calls. Qed.

Lemma renderLoop_ticks width height now view w w0 :
  calls w = calls w0 ->
  Z.of_nat (length (filter is_tick (made w0 (renderLoop width height now view w))))
  = Z.max 0 (rangeSlider_value w).
Proof.
  intros Hc.
  rewrite (made_app w0 _ _
    (eq_trans (renderLoop_calls width height now view w)
              (f_equal (fun l => l ++ _) Hc))).
  rewrite !filter_app, filter_repeat, is_tick_Ctx, is_tick_cells_calls.
  cbn. rewrite app_nil_r, repeat_length. lia.
Qed.

Lemma renderLoop_fields width height now view w :
  let w' := renderLoop width height now view w in
  animationId w' = Some (raf_next w)
  /\ raf_pending w' = raf_pending w ++ [raf_next w]
  /\ raf_next w' = S (raf_next w)
  /\ playPause_textContent w' = playPause_textContent w
  /\ rangeSlider_value w' = rangeSlider_value w
  /\ frames w' = Fps.push_latest (frames w) (Fps.rate (now - lastFrameTimeStamp w)).
Proof.
  intros w'. pose proof (renderLoop_world width height now view w) as Hw.
  fold w' in Hw. clearbody w'. destruct w'. unfold forget_calls in Hw. cbn in Hw.
  injection Hw as -> -> -> -> -> -> -> ->. cbn. repeat split.
Qed.

(** X6.  A click on the toggle flips the page between paused and running
    and sets the other glyph.  From paused it runs one frame step at once
    (one sample, as many advances as the slider says); from running it
    advances nothing and leaves the window as it is. *)
Theorem toggle_alternates width height now view w :
  let w' := playPauseButton_click width height now view w in
  isPaused w' = negb (isPaused w)
  /\ playPause_textContent w' = (if isPaused w then "⏸" else "▶")%string
  /\ Z.of_nat (length (filter is_tick (made w w')))
     = (if isPaused w then Z.max 0 (rangeSlider_value w) else 0)
  /\ frames w' = (if isPaused w
                  then Fps.push_latest (frames w) (Fps.rate (now - lastFrameTimeStamp w))
                  else frames w).
Proof.
  intros w'. subst w'. unfold playPauseButton_click.
  destruct (isPaused w) eqn:Hp.
  - unfold play.
    destruct (renderLoop_fields width height now view
                (set_playPause_textContent "⏸" w)) as (Ha & _ & _ & Hl & _ & Hf).
    unfold isPaused at 1. rewrite Ha, Hl, Hf.
    repeat split.
    now rewrite (renderLoop_ticks width height now view _ w).
  - repeat split. unfold pause, made. cbn.
    now rewrite skipn_app, skipn_all, Nat.sub_diag.
Qed.

(** X7.  [play()] followed at once by [pause()], from a paused page: one
    frame step has run (the slider's value in advances), the frame it
    requested is the one cancelled, nothing stays queued, and a frame of
    the platform after that runs nothing. *)
Theorem play_then_pause_runs_one_step width height now view w :
  consistent w -> isPaused w = true ->
  let w' := pause (play width height now view w) in
  isPaused w' = true
  /\ raf_pending w' = []
  /\ playPause_textContent w' = "▶"%string
  /\ Z.of_nat (length (filter is_tick (made w w'))) = rangeSlider_value w
  /\ filter is_cancel (made w w') = [cancelAnimationFrame (Some (raf_next w))]
  /\ forall now' view', platform_frame width height now' view' w' = w'.
Proof.
  intros Hc Hp w'.
  pose proof (consistent_paused w Hc Hp) as Hq.
  destruct (renderLoop_fields width height now view
              (set_playPause_textContent "⏸" w)) as (Ha & Hpend & _).
  assert (Hpend' : raf_pending w' = []).
  { subst w'. unfold pause, play, platform_cancel. cbn [raf_pending set_animationId
      set_playPause_textContent animationId].
    rewrite Ha, Hpend. cbn [raf_pending set_playPause_textContent raf_next].
    rewrite Hq. cbn. now rewrite Nat.eqb_refl. }
  assert (Hcalls : calls w'
    = calls w ++ ([performance_now now]
        ++ repeat (Universe tick) (Z.to_nat (rangeSlider_value w))
        ++ map Ctx (grid_path width height)
        ++ cells_calls width height view
        ++ [requestAnimationFrame (raf_next w)])
      ++ [cancelAnimationFrame (Some (raf_next w))]).
  { subst w'. unfold pause, play, platform_cancel.
    cbn [calls set_animationId set_playPause_textContent animationId].
    rewrite Ha, renderLoop_calls. cbn [calls set_playPause_textContent
      rangeSlider_value raf_next]. now rewrite <- !app_assoc. }
  rewrite <- app_assoc in Hcalls. apply made_app in Hcalls.
  split; [reflexivity|]. split; [exact Hpend'|]. split; [reflexivity|].
  split; [|split].
  - rewrite Hcalls, !filter_app, filter_repeat, is_tick_Ctx, is_tick_cells_calls.
    cbn. rewrite !app_nil_r, repeat_length. destruct Hc as (_ & _ & Hs). lia.
  - rewrite Hcalls, !filter_app, filter_repeat, is_cancel_Ctx.
    unfold cells_calls. cbn [filter is_cancel app]. now rewrite is_cancel_Ctx.
  - intros now' view'. unfold platform_frame. now rewrite Hpend'.
Qed.

Lemma made_emits_filter_tick width height view w c :
  is_tick (Universe c) = false ->
  filter is_tick (made w (emits (Universe c :: map Ctx (grid_path width height)
                                   ++ cells_calls width height view) w)) = [].
Proof.
  intros Hc. rewrite made_emits. cbn [filter]. rewrite Hc.
  apply is_tick_grid_cells.
Qed.

Lemma canvas_click_emits width height boundingRect event view w :
  let row := click_row height (canvasTop height boundingRect event) in
  let col := click_col width (canvasLeft width boundingRect event) in
  canvas_click width height boundingRect event view w
  = emits (Universe (if ctrlKey event then make_glider row col
                     else if shiftKey event then make_pulsar row col
                     else toggle_cell row col)
           :: map Ctx (grid_path width height) ++ cells_calls width height view) w.
Proof.
  intros row col. unfold canvas_click.
  rewrite drawCells_emits, drawGrid_emits. fold row col.
  destruct (ctrlKey event); [|destruct (shiftKey event)];
    unfold universe, emit; now rewrite !emits_emits.
Qed.

(** X8.  In every state the page reaches, a frame of the platform does
    nothing while the page is paused; while it runs, the frame step
    advances the engine as many times as the slider says, between 1 and
    50, and leaves exactly one frame queued. *)
Theorem frame_advances_1_to_50 width height t0 label view0 es now view :
  let w := run width height es (startup width height t0 label view0) in
  let w' := handle width height (Frame now view) w in
  let n := Z.of_nat (length (filter is_tick (made w w'))) in
  if isPaused w then w' = w /\ n = 0
  else n = rangeSlider_value w /\ 1 <= n <= 50 /\ isPaused w' = false
       /\ (length (raf_pending w') = 1)%nat.
Proof.
  intros w w' n.
  assert (Hc : consistent w)
    by (apply consistent_run, consistent_startup).
  destruct (isPaused w) eqn:Hp.
  - pose proof (consistent_paused w Hc Hp) as Hq.
    assert (Hw : w' = w) by (subst w'; cbn [handle]; unfold platform_frame; now rewrite Hq).
    split; [exact Hw|]. subst n. rewrite Hw. now rewrite made_same.
  - destruct (consistent_running w Hc Hp) as (h & Hh & Hq).
    subst n w'. cbn [handle]. unfold platform_frame. rewrite Hq.
    set (w1 := mkWorld _ _ _ _ _ _ _ _ _).
    destruct (renderLoop_fields width height now view w1) as (Ha & Hpd & _).
    rewrite (renderLoop_ticks width height now view w1 w eq_refl).
    destruct Hc as (_ & _ & Hs). cbn [rangeSlider_value w1].
    unfold isPaused. rewrite Ha, Hpd. cbn. repeat split; lia.
Qed.

(** X9.  A click on the canvas sends the engine exactly one command, at
    the row and column computed, then repaints: a glider when Ctrl is held
    (also when Shift is held too), else a pulsar when Shift is held, else
    a toggle of the cell.  It never advances the engine, and it leaves the
    play state, the monitor, the slider and the scheduler as they were. *)
Theorem canvas_click_one_command width height boundingRect event view w :
  let w' := canvas_click width height boundingRect event view w in
  let row := click_row height (canvasTop height boundingRect event) in
  let col := click_col width (canvasLeft width boundingRect event) in
  let command := if ctrlKey event then make_glider row col
                 else if shiftKey event then make_pulsar row col
                 else toggle_cell row col in
  forget_calls w' = forget_calls w
  /\ made w w'
     = Universe command :: map Ctx (grid_path width height) ++ cells_calls width height view
  /\ filter is_mutation (made w w') = [Universe command]
  /\ filter is_tick (made w w') = []
  /\ (ctrlKey event = true -> shiftKey event = true -> command = make_glider row col).
Proof.
  intros w' row col command.
  assert (Hw : w' = emits (Universe command :: map Ctx (grid_path width height)
                           ++ cells_calls width height view) w)
    by apply canvas_click_emits.
  rewrite Hw, made_emits. repeat split.
  - cbn [filter]. replace (is_mutation (Universe command)) with true
      by (subst command; now destruct (ctrlKey event), (shiftKey event)).
    now rewrite filter_app, is_mutation_Ctx, is_mutation_cells_calls.
  - cbn [filter]. replace (is_tick (Universe command)) with false
      by (subst command; now destruct (ctrlKey event), (shiftKey event)).
    apply is_tick_grid_cells.
  - intros Hctrl _. subst command. now rewrite Hctrl.
Qed.

(** X10.  A click on a reset button sends the engine its one command
    ([reset_rand] or [reset_dead]), repaints, and leaves the play state,
    the monitor, the slider and the scheduler as they were. *)
Theorem reset_clicks_reset_and_repaint width height view w :
  let wr := resetRand_click width height view w in
  let wd := resetDead_click width height view w in
  forget_calls wr = forget_calls w /\ forget_calls wd = forget_calls w
  /\ made w wr
     = Universe reset_rand :: map Ctx (grid_path width height) ++ cells_calls width height view
  /\ made w wd
     = Universe reset_dead :: map Ctx (grid_path width height) ++ cells_calls width height view
  /\ filter is_mutation (made w wr) = [Universe reset_rand]
  /\ filter is_mutation (made w wd) = [Universe reset_dead].
Proof.
  intros wr wd. subst wr wd.
  rewrite resetRand_click_emits, resetDead_click_emits, !made_emits.
  repeat split; cbn [filter is_mutation];
    now rewrite filter_app, is_mutation_Ctx, is_mutation_cells_calls.
Qed.

(** X11.  The script's start: it reads the clock once, paints the grid and
    the cells once, and pauses.  It ends paused with the play glyph, an
    empty window and nothing queued; it never advances or edits the
    engine. *)
Theorem startup_paints_and_stays_paused width height t0 label view :
  let w := startup width height t0 label view in
  calls w
  = [performance_now t0]
    ++ map Ctx (grid_path width height)
    ++ cells_calls width height view
    ++ [cancelAnimationFrame None]
  /\ isPaused w = true
  /\ playPause_textContent w = "▶"%string
  /\ raf_pending w = [] /\ frames w = []
  /\ filter is_tick (calls w) = []
  /\ filter is_mutation (calls w) = [].
Proof.
  intros w.
  assert (Hw : w = pause (emits (map Ctx (grid_path width height)
                                 ++ cells_calls width height view)
                            (initial t0 label))).
  { subst w. unfold startup. now rewrite drawCells_emits, drawGrid_emits, emits_emits. }
  assert (Hcalls : calls w
    = [performance_now t0]
      ++ map Ctx (grid_path width height)
      ++ cells_calls width height view
      ++ [cancelAnimationFrame None]).
  { rewrite Hw.
    change (calls (pause ?x)) with (calls x ++ [cancelAnimationFrame (animationId x)]).
    rewrite calls_emits. cbn [initial calls animationId emits].
    now rewrite <- !app_assoc. }
  split; [exact Hcalls|]. rewrite Hcalls.
  split; [now rewrite Hw|]. split; [now rewrite Hw|].
  split; [now rewrite Hw|]. split; [now rewrite Hw|].
  split.
  - rewrite !filter_app, is_tick_Ctx, is_tick_cells_calls. reflexivity.
  - rewrite !filter_app, is_mutation_Ctx, is_mutation_cells_calls. reflexivity.
Qed.

Lemma length_push_latest fr x :
  (length fr <= 100)%nat -> (length (Fps.push_latest fr x) <= 100)%nat.
Proof.
  intros H. rewrite push_latest_latest, length_latest by assumption. lia.
Qed.

Lemma frames_handle width height e w :
  frames (handle width height e w) = frames w
  \/ exists now, frames (handle width height e w)
                 = Fps.push_latest (frames w) (Fps.rate (now - lastFrameTimeStamp w)).
Proof.
  destruct e as [now view|rect ev view|view|view|v|now view]; cbn [handle].
  - unfold playPauseButton_click. destruct (isPaused w); [|now left].
    right. exists now. unfold play.
    now destruct (renderLoop_fields width height now view
                    (set_playPause_textContent "⏸" w)) as (_ & _ & _ & _ & _ & ->).
  - left. now rewrite canvas_click_emits.
  - left. now rewrite resetRand_click_emits.
  - left. now rewrite resetDead_click_emits.
  - now left.
  - unfold platform_frame. destruct (raf_pending w) as [|h rest]; [now left|].
    right. exists now.
    now destruct (renderLoop_fields width height now view
      (mkWorld (frames w) (lastFrameTimeStamp w) (fps_textContent w) (animationId w)
         (playPause_textContent w) (rangeSlider_value w) (raf_next w) rest (calls w)))
      as (_ & _ & _ & _ & _ & ->).
Qed.

(** X12.  Whatever happens to the page after the script has run, the
    sample window holds at most 100 entries. *)
Theorem page_window_at_most_100 width height t0 label view es :
  (length (frames (run width height es (startup width height t0 label view))) <= 100)%nat.
Proof.
  assert (H0 : (length (frames (startup width height t0 label view)) <= 100)%nat).
  { unfold startup. rewrite drawCells_emits, drawGrid_emits. cbn. lia. }
  revert H0. generalize (startup width height t0 label view).
  induction es as [|e es IH]; intros w Hw; [exact Hw|].
  cbn [run fold_left]. apply IH.
  destruct (frames_handle width height e w) as [->|(now & ->)]; [exact Hw|].
  now apply length_push_latest.
Qed.

Lemma lastFrameTimeStamp_emits cs w : lastFrameTimeStamp (emits cs w) = lastFrameTimeStamp w.
Proof. reflexivity. Qed.

(** While paused, what is not a click on the toggle leaves the page paused
    and the monitor as it was. *)
Lemma paused_handle width height e w :
  consistent w -> isPaused w = true -> is_toggle e = false ->
  let w' := handle width height e w in
  consistent w' /\ isPaused w' = true
  /\ frames w' = frames w /\ lastFrameTimeStamp w' = lastFrameTimeStamp w
  /\ filter is_tick (made w w') = [].
Proof.
  intros Hc Hp He w'.
  pose proof (consistent_paused w Hc Hp) as Hq.
  split; [now apply consistent_handle|].
  destruct e as [now view|rect ev view|view|view|v|now view]; subst w'; cbn [handle];
    try discriminate He.
  - rewrite canvas_click_emits. repeat split; try assumption.
    apply made_emits_filter_tick. now destruct (ctrlKey ev), (shiftKey ev).
  - rewrite resetRand_click_emits. repeat split; try assumption.
    now apply made_emits_filter_tick.
  - rewrite resetDead_click_emits. repeat split; try assumption.
    now apply made_emits_filter_tick.
  - repeat split; try assumption. now rewrite made_same.
  - unfold platform_frame. rewrite Hq. repeat split; try assumption.
    now rewrite made_same.
Qed.

(** Every handler only adds to the record of calls. *)
Lemma handle_appends width height e w :
  calls (handle width height e w) = calls w ++ made w (handle width height e w).
Proof.
  assert (H : forall w' cs, calls w' = calls w ++ cs -> calls w' = calls w ++ made w w').
  { intros w' cs Hcs. now rewrite (made_app w w' cs Hcs). }
  destruct e as [now view|rect ev view|view|view|v|now view]; cbn [handle].
  - unfold playPauseButton_click. destruct (isPaused w).
    + unfold play. eapply H.
      rewrite renderLoop_calls. reflexivity.
    + eapply H. reflexivity.
  - rewrite canvas_click_emits. eapply H. apply calls_emits.
  - rewrite resetRand_click_emits. eapply H. apply calls_emits.
  - rewrite resetDead_click_emits. eapply H. apply calls_emits.
  - rewrite made_same by reflexivity. symmetry. apply app_nil_r.
  - unfold platform_frame. destruct (raf_pending w) as [|h rest].
    + rewrite made_same by reflexivity. symmetry. apply app_nil_r.
    + eapply H. rewrite renderLoop_calls. reflexivity.
Qed.

Lemma paused_run width height es : forall w,
  consistent w -> isPaused w = true ->
  forallb (fun e => negb (is_toggle e)) es = true ->
  let w' := run width height es w in
  consistent w' /\ isPaused w' = true
  /\ frames w' = frames w /\ lastFrameTimeStamp w' = lastFrameTimeStamp w
  /\ exists cs, calls w' = calls w ++ cs /\ filter is_tick cs = [].
Proof.
  induction es as [|e es IH]; intros w Hc Hp Hes;
    [|change (run width height (e :: es) w)
        with (run width height es (handle width height e w))].
  - split; [exact Hc|]. split; [exact Hp|]. split; [reflexivity|].
    split; [reflexivity|]. exists []. split; [now rewrite app_nil_r|reflexivity].
  - cbn [forallb] in Hes. apply andb_true_iff in Hes. destruct Hes as [He Hes].
    apply negb_true_iff in He.
    destruct (paused_handle width height e w Hc Hp He) as (Hc1 & Hp1 & Hf1 & Hl1 & Ht1).
    destruct (IH (handle width height e w) Hc1 Hp1 Hes) as (Hc2 & Hp2 & Hf2 & Hl2 & cs & Hcs & Ht2).
    split; [exact Hc2|]. split; [exact Hp2|].
    split; [now rewrite Hf2|]. split; [now rewrite Hl2|].
    exists (made w (handle width height e w) ++ cs). split.
    + rewrite Hcs, handle_appends. now rewrite app_assoc.
    + now rewrite filter_app, Ht1, Ht2.
Qed.

(** X13.  While the page is paused, nothing but a click on the toggle sets
    it going: through any run of canvas clicks, resets, slider moves and
    platform frames it stays paused with nothing queued, the engine is
    never advanced, and the monitor takes no sample. *)
Theorem paused_page_stays_still width height es w :
  consistent w -> isPaused w = true ->
  forallb (fun e => negb (is_toggle e)) es = true ->
  let w' := run width height es w in
  isPaused w' = true
  /\ raf_pending w' = []
  /\ filter is_tick (made w w') = []
  /\ frames w' = frames w
  /\ lastFrameTimeStamp w' = lastFrameTimeStamp w.
Proof.
  intros Hc Hp Hes w'.
  destruct (paused_run width height es w Hc Hp Hes) as (Hc' & Hp' & Hf & Hl & cs & Hcs & Ht).
  fold w' in Hc', Hp', Hf, Hl, Hcs.
  split; [exact Hp'|]. split; [exact (consistent_paused w' Hc' Hp')|].
  split; [now rewrite (made_app w w' cs Hcs)|]. now split.
Qed.

(** X14.  The monitor's clock reading is not refreshed while the page is
    paused: the first sample after the toggle is clicked again has, as its
    delta, the time since the last frame before the pause (or since the
    script started). *)
Theorem resume_counts_the_pause_as_a_frame width height es now view w :
  consistent w -> isPaused w = true ->
  forallb (fun e => negb (is_toggle e)) es = true ->
  let w' := run width height (es ++ [ToggleClick now view]) w in
  isPaused w' = false
  /\ frames w' = Fps.push_latest (frames w) (Fps.rate (now - lastFrameTimeStamp w))
  /\ lastFrameTimeStamp w' = now.
Proof.
  intros Hc Hp Hes w'.
  destruct (paused_run width height es w Hc Hp Hes) as (_ & Hp' & Hf & Hl & _).
  subst w'. unfold run in *. rewrite fold_left_app. cbn [fold_left handle].
  set (w1 := fold_left _ es w) in *.
  unfold playPauseButton_click. rewrite Hp'. unfold play.
  pose proof (renderLoop_world width height now view
                (set_playPause_textContent "⏸" w1)) as Hw.
  destruct (renderLoop_fields width height now view
              (set_playPause_textContent "⏸" w1)) as (Ha & _ & _ & _ & _ & Hfr).
  split; [unfold isPaused; now rewrite Ha|].
  split; [rewrite Hfr; cbn [frames lastFrameTimeStamp set_playPause_textContent];
          now rewrite Hf, Hl|].
  change (lastFrameTimeStamp ?x) with (lastFrameTimeStamp (forget_calls x)).
  now rewrite Hw.
Qed.

(** ** Rates under a clock that goes forward *)

Lemma SF_nonneg_leb x : SF_nonneg x = true -> SFleb (S754_zero false) x = true.
Proof. destruct x as [s|s| |s m e]; cbn; try discriminate; try reflexivity; now destruct s. Qed.

Lemma SF_ltb_zero_pos x :
  SFltb (S754_zero false) x = true ->
  x = S754_infinity false \/ exists m e, x = S754_finite false m e.
Proof.
  destruct x as [s|s| |s m e]; cbn; try discriminate; destruct s; try discriminate; intros _.
  - now left.
  - right. now exists m, e.
Qed.

Lemma SFdiv_one_pos x :
  x = S754_infinity false \/ (exists m e, x = S754_finite false m e) ->
  SF_nonneg (SF64div (Prim2SF 1) x) = true.
Proof.
  change (Prim2SF 1) with (S754_finite false 4503599627370496 (-52)).
  intros [->|(m & e & ->)]; [reflexivity|]. cbn.
  pose proof (SFdiv_core_binary_nonneg prec emax 4503599627370496 (-52) m e) as Hq.
  destruct (SFdiv_core_binary prec emax _ (-52) (Zpos m) e) as [[mz ez] lz].
  cbn [fst] in Hq.
  pose proof (binary_round_aux_sign prec emax false mz ez lz Hq) as Hr.
  destruct (binary_round_aux prec emax false mz ez lz); try contradiction; now subst.
Qed.

Lemma SFmul_nonneg x my ey :
  SF_nonneg x = true -> SF_nonneg (SF64mul x (S754_finite false my ey)) = true.
Proof.
  destruct x as [s|s| |s mx ex]; cbn; try discriminate; try reflexivity.
  - now destruct s.
  - destruct s; [discriminate|]. intros _. cbn.
    pose proof (binary_round_aux_sign prec emax false (Zpos (mx * my)) (ex + ey)
                  loc_Exact ltac:(lia)) as Hr.
    destruct (binary_round_aux prec emax false _ _ _); try contradiction; now subst.
Qed.

Section Positive.
Local Open Scope float_scope.

Lemma rate_nonneg delta : (0 <? delta) = true -> (0 <=? Fps.rate delta) = true.
Proof.
  rewrite FloatAxioms.ltb_spec, FloatAxioms.leb_spec. unfold Fps.rate.
  rewrite FloatAxioms.mul_spec, FloatAxioms.div_spec.
  change (Prim2SF 0) with (S754_zero false).
  change (Prim2SF 1000) with (S754_finite false 8796093022208000 (-43)).
  intros H. now apply SF_nonneg_leb, SFmul_nonneg, SFdiv_one_pos, SF_ltb_zero_pos.
Qed.

Lemma In_push_latest fr y x : In x (Fps.push_latest fr y) -> In x fr \/ x = y.
Proof.
  unfold Fps.push_latest. intros H.
  assert (H' : In x (fr ++ [y])).
  { destruct (_ <? _)%nat; [|exact H].
    destruct (fr ++ [y]); [contradiction|now right]. }
  apply in_app_or in H'. destruct H' as [H'|[H'|[]]]; auto.
Qed.

Lemma renders_nonneg ts : forall w,
  (forall x, In x (frames w) -> (0 <=? x) = true) ->
  positive_deltas (lastFrameTimeStamp w) ts = true ->
  forall x, In x (frames (renders ts w)) -> (0 <=? x) = true.
Proof.
  induction ts as [|t ts IH]; intros w Hw Hts; [exact Hw|].
  cbn [positive_deltas] in Hts. apply andb_true_iff in Hts. destruct Hts as [Ht Hts].
  change (renders (t :: ts) w) with (renders ts (Fps.render t w)).
  apply IH; [|exact Hts].
  intros x Hx. rewrite frames_render in Hx. apply In_push_latest in Hx.
  destruct Hx as [Hx| ->]; [now apply Hw|now apply rate_nonneg].
Qed.

Lemma renders_not_nil ts w : ts <> [] -> frames (renders ts w) <> [].
Proof.
  intros Hne. destruct (exists_last Hne) as (ts' & t & ->).
  unfold renders. rewrite fold_left_app. cbn [fold_left].
  rewrite frames_render. apply push_latest_not_nil.
Qed.

(** X15.  When every delta the monitor takes is positive, every rate in
    the window is a number and is not negative, and so is the minimum
    reported. *)
Theorem positive_deltas_give_nonnegative_rates t0 label ts :
  positive_deltas t0 ts = true ->
  let fr := frames (renders ts (initial t0 label)) in
  (forall x, In x fr -> (0 <=? x) = true /\ is_nan x = false)
  /\ (ts <> [] -> (0 <=? Fps.min (Fps.statistics fr)) = true).
Proof.
  intros Hts fr.
  assert (Hall : forall x, In x fr -> (0 <=? x) = true).
  { apply (renders_nonneg ts (initial t0 label)); [intros x []|exact Hts]. }
  assert (Hnn : forall x, In x fr -> is_nan x = false).
  { intros x Hx. now destruct (float_leb_not_nan 0 x (Hall x Hx)). }
  split; [intros x Hx; split; auto|].
  intros Hne.
  assert (Hfr : fr <> []) by (now apply renders_not_nil).
  assert (Hnan : no_nan fr = true).
  { unfold no_nan. apply forallb_forall. intros x Hx.
    apply negb_true_iff. now apply Hnn. }
  destruct (statistics_extrema fr Hfr Hnan) as (Hmin & _).
  now apply Hall.
Qed.
End Positive.

(** ** Inputs at which the hypotheses above hold *)

Lemma drawCells_fills_every_cell_once_witness :
  length (fills (ctx_calls (made (initial 0 "")
                   (drawCells 2 2 (fun idx => if Z.even idx then Alive else Dead)
                      (initial 0 ""))))
            "#000000")
  = Z.to_nat (2 * 2).
Proof.
  exact (proj1 (proj2 (drawCells_fills_every_cell_once 2 2
    (fun idx => if Z.even idx then Alive else Dead) (initial 0 "") "#000000"
    ltac:(lia)))).
Defined.

Lemma drawCells_reads_the_view_only_witness :
  drawCells 2 2 (fun _ => Dead) (initial 0 "")
  = drawCells 2 2 (fun idx => if idx <? 4 then Dead else Alive) (initial 0 "").
Proof.
  apply (drawCells_reads_the_view_only 2 2).
  intros idx H. destruct (Z.ltb_spec idx 4); [reflexivity|lia].
Defined.

Lemma cell_squares_disjoint_inside_canvas_witness :
  overlap (cell_fill 2 ALIVE_COLOR 0) (cell_fill 2 DEAD_COLOR 3) = false.
Proof.
  exact (proj2 (cell_squares_disjoint_inside_canvas 2 2
    (fun idx => if Z.even idx then Alive else Dead) (initial 0 "") "#000000"
    ltac:(lia)) 0%nat 3%nat _ _ eq_refl eq_refl ltac:(lia)).
Defined.

Lemma play_then_pause_runs_one_step_witness :
  isPaused (pause (play 2 2 16 (fun _ => Dead) (startup 2 2 0 "" (fun _ => Dead))))
  = true.
Proof.
  exact (proj1 (play_then_pause_runs_one_step 2 2 16 (fun _ => Dead)
    (startup 2 2 0 "" (fun _ => Dead))
    (consistent_startup 2 2 0 "" (fun _ => Dead)) eq_refl)).
Defined.

Lemma paused_page_stays_still_witness :
  isPaused (run 2 2 [SliderInput 5; Frame 16 (fun _ => Dead); ResetRandClick (fun _ => Alive)]
              (startup 2 2 0 "" (fun _ => Dead)))
  = true.
Proof.
  exact (proj1 (paused_page_stays_still 2 2
    [SliderInput 5; Frame 16 (fun _ => Dead); ResetRandClick (fun _ => Alive)]
    (startup 2 2 0 "" (fun _ => Dead))
    (consistent_startup 2 2 0 "" (fun _ => Dead)) eq_refl eq_refl)).
Defined.

Lemma resume_counts_the_pause_as_a_frame_witness :
  frames (run 2 2 ([SliderInput 5; Frame 16 (fun _ => Dead)]
                   ++ [ToggleClick 5000 (fun _ => Dead)])
            (startup 2 2 0 "" (fun _ => Dead)))
  = Fps.push_latest (frames (startup 2 2 0 "" (fun _ => Dead)))
      (Fps.rate (5000 - lastFrameTimeStamp (startup 2 2 0 "" (fun _ => Dead)))).
Proof.
  exact (proj1 (proj2 (resume_counts_the_pause_as_a_frame 2 2
    [SliderInput 5; Frame 16 (fun _ => Dead)] 5000 (fun _ => Dead)
    (startup 2 2 0 "" (fun _ => Dead))
    (consistent_startup 2 2 0 "" (fun _ => Dead)) eq_refl eq_refl))).
Defined.

Lemma positive_deltas_give_nonnegative_rates_witness :
  (0 <=? Fps.min (Fps.statistics (frames (renders [16; 33]%float (initial 0 "")))))%float
  = true.
Proof.
  exact (proj2 (positive_deltas_give_nonnegative_rates 0 "" [16; 33]%float eq_refl)
           ltac:(discriminate)).
Defined.
